(** * Graph helpers of the dashboard: [treeBfs], [graphBfs] and
      [getConnectedComponent] (dashboard/lib/algo.ts)

    The three functions work on JavaScript objects compared by identity.
    The embedding keeps an explicit object store: an object is a location,
    the store maps locations to records of the properties the code reads
    or writes ([val], [nextNodes], [g]), and every function threads the
    store.  Exceptions ([TypeError] on a property access of [undefined])
    are a completion of their own, and the two [while] loops are unrolled
    by a fuel argument. *)

From stdpp Require Import numbers list relations gmap.

(* stdpp's solvers clear hypotheses that may be gone already. *)
Set Warnings "-clear-no-such-hyp".

Open Scope Z_scope.

(** ** Values and the object store *)

(** What a callback may hand back; only its truthiness is inspected. *)
Inductive jsval :=
  | JUndefined
  | JNull
  | JBool (b : bool)
  | JNum (z : Z)
  | JNaN
  | JStr (s : list nat)
  | JRef (l : nat).

(** JavaScript's ToBoolean. *)
Definition truthy (v : jsval) : bool :=
  match v with
  | JUndefined | JNull | JNaN => false
  | JBool b => b
  | JNum z => negb (z =? 0)
  | JStr s => negb (bool_decide (s = []))
  | JRef _ => true
  end.

(** An object identity. *)
Abbreviation loc := nat.

(** The properties the module touches.  An input node has a [nextNodes]
    array and whatever else its owner gave it; a shell node is the
    literal [{ val: node, nextNodes: [], g: -1 }]. *)
Record obj := Obj {
  val : option loc;
  nextNodes : list loc;
  g : option Z
}.

(** The store: location [l] holds the [l]-th allocated object.  A location
    past the end stands for a value that is no object ([undefined]): reading
    a property of it throws. *)
Abbreviation heap := (list obj).

Definition alloc (o : obj) (h : heap) : loc * heap := (length h, h ++ [o]).

(** How a call completes. *)
Inductive completion (St A : Type) :=
  | Normal (s : St) (a : A)
  | Throw (s : St)
  | OutOfFuel.
Arguments Normal {St A} s a.
Arguments Throw {St A} s.
Arguments OutOfFuel {St A}.

(** ** treeBfs *)

Section TreeBfs.
Context {St : Type}.
(** [c.nextNodes] in state [s]; [None] when the read throws. *)
Variable children : St → loc → option (list loc).
(** The callback: new state, and the returned value unless it throws. *)
Variable step : loc → St → St * option jsval.

Inductive tree_iter :=
  | TContinue (queue : list loc) (s : St)
  | TFinished (s : St)
  | TRaise (s : St).

(** One test of [queue.length] followed by one loop body. *)
Definition treeBfs_iter (queue : list loc) (s : St) : tree_iter :=
  match queue with
  | [] => TFinished s
  | c :: queue =>
      match step c s with
      | (s, None) => TRaise s
      | (s, Some r) =>
          if negb (truthy r) then
            match children s c with
            | None => TRaise s
            | Some next => TContinue (foldl (λ q nextNode, q ++ [nextNode]) queue next) s
            end
          else TContinue queue s
      end
  end.

Fixpoint treeBfs_loop (fuel : nat) (queue : list loc) (s : St) : completion St unit :=
  match fuel with
  | O => OutOfFuel
  | S fuel =>
      match treeBfs_iter queue s with
      | TContinue queue s => treeBfs_loop fuel queue s
      | TFinished s => Normal s ()
      | TRaise s => Throw s
      end
  end.

Definition treeBfs (fuel : nat) (root : loc) (s : St) : completion St unit :=
  treeBfs_loop fuel [root] s.
End TreeBfs.

(** ** graphBfs *)

Section GraphBfs.
Context {St : Type}.
(** [c[key]] in state [s], for [key = neighborListKey || "nextNodes"];
    [None] when the value is not iterable and the [for] throws. *)
Variable neighbours : St → loc → option (list loc).
Variable step : loc → St → St * option jsval.

Record bfs_state := BfsState {
  queue : list loc;
  visitedNodes : gset loc;
  store : St
}.

Inductive bfs_iter :=
  | Continue (σ : bfs_state)
  | Finished (s : St)
  | Raise (s : St).

(** The inner [for]: push every neighbour that is not in [visitedNodes]. *)
Definition push_unvisited (visited : gset loc) (queue next : list loc) : list loc :=
  foldl (λ q nextNode, if decide (nextNode ∈ visited) then q else q ++ [nextNode])
        queue next.

(** One test of [queue.length] followed by one loop body. *)
Definition graphBfs_iter (σ : bfs_state) : bfs_iter :=
  match queue σ with
  | [] => Finished (store σ)
  | c :: queue =>
      let visited := {[c]} ∪ visitedNodes σ in
      match step c (store σ) with
      | (s, None) => Raise s
      | (s, Some r) =>
          if negb (truthy r) then
            match neighbours s c with
            | None => Raise s
            | Some next => Continue (BfsState (push_unvisited visited queue next) visited s)
            end
          else Continue (BfsState queue visited s)
      end
  end.

(** The [while] loop, run for at most [2 ^ fuel] iterations. *)
Fixpoint graphBfs_loop (fuel : nat) (σ : bfs_state) : bfs_iter :=
  match fuel with
  | O => graphBfs_iter σ
  | S fuel =>
      match graphBfs_loop fuel σ with
      | Continue σ => graphBfs_loop fuel σ
      | r => r
      end
  end.

Definition graphBfs (fuel : nat) (root : loc) (s : St) : completion St unit :=
  match graphBfs_loop fuel (BfsState [root] ∅ s) with
  | Continue _ => OutOfFuel
  | Finished s => Normal s ()
  | Raise s => Throw s
  end.
End GraphBfs.

Arguments BfsState {St} queue visitedNodes store.
Arguments queue {St} _.
Arguments visitedNodes {St} _.
Arguments store {St} _.
Arguments Continue {St} σ.
Arguments Finished {St} s.
Arguments Raise {St} s.

(** ** The insertion-ordered [Map] *)

(** [node2shellNodes]: keys are compared by identity, [keys()] yields them
    in the order of their first insertion, and a second [set] of a key
    replaces the value where the key already stands. *)
Abbreviation jsmap := (list (loc * loc)).

Fixpoint map_set (k v : loc) (m : jsmap) : jsmap :=
  match m with
  | [] => [(k, v)]
  | (k', v') :: m => if decide (k' = k) then (k, v) :: m else (k', v') :: map_set k v m
  end.

Fixpoint map_get (k : loc) (m : jsmap) : option loc :=
  match m with
  | [] => None
  | (k', v') :: m => if decide (k' = k) then Some v' else map_get k m
  end.

Definition map_keys (m : jsmap) : list loc := m.*1.

(** ** getConnectedComponent *)

(** [{ val: node, nextNodes: [], g: -1 }] *)
Definition shell (node : loc) : obj := Obj (Some node) [] (Some (-1)).

(** First loop: one fresh shell node per element of [nodes]. *)
Fixpoint makeShells (nodes : list loc) (m : jsmap) (h : heap) : jsmap * heap :=
  match nodes with
  | [] => (m, h)
  | node :: nodes =>
      let '(shellNode, h) := alloc (shell node) h in
      makeShells nodes (map_set node shellNode m) h
  end.

(** [target.nextNodes.push(x)]; [None] when [target] is [undefined]. *)
Definition push_nextNodes (target x : loc) (h : heap) : option heap :=
  o ← h !! target;
  Some (<[target := Obj (val o) (nextNodes o ++ [x]) (g o)]> h).

(** The inner [for] of the second loop.  A [get] that misses yields
    [undefined], and the property access on it throws.  At the throw on
    [nextShellNode] the source has already appended that [undefined] to
    the array of [shellNode]; the store handed back here leaves the
    append out, the array being one of a shell node that the throw makes
    unreachable. *)
Fixpoint linkNextNodes (m : jsmap) (shellNode : option loc) (next : list loc)
    (h : heap) : completion heap unit :=
  match next with
  | [] => Normal h ()
  | nextNode :: next =>
      let nextShellNode := map_get nextNode m in
      match shellNode, nextShellNode with
      | Some s, Some t =>
          match push_nextNodes s t h with
          | None => Throw h
          | Some h =>
              match push_nextNodes t s h with
              | None => Throw h
              | Some h => linkNextNodes m shellNode next h
              end
          end
      | _, _ => Throw h
      end
  end.

(** Second loop: mirror every edge of every element of [nodes]. *)
Fixpoint linkShells (m : jsmap) (nodes : list loc) (h : heap) : completion heap unit :=
  match nodes with
  | [] => Normal h ()
  | node :: nodes =>
      let shellNode := map_get node m in
      match h !! node with
      | None => Throw h
      | Some o =>
          match linkNextNodes m shellNode (nextNodes o) h with
          | Normal h _ => linkShells m nodes h
          | r => r
          end
      end
  end.

(** [c.nextNodes], the default neighbour list of [graphBfs]. *)
Definition nextNodes_of (h : heap) (c : loc) : option (list loc) :=
  nextNodes <$> h !! c.

(** The callback [(c) => { c.g = shellNode.g; return false; }]. *)
Definition markGroup (shellNode c : loc) (h : heap) : heap * option jsval :=
  match h !! shellNode, h !! c with
  | Some so, Some co => (<[c := Obj (val co) (nextNodes co) (g so)]> h, Some (JBool false))
  | _, _ => (h, None)
  end.

(** Iterations granted to a traversal of the store [h]: [graphBfs_loop]
    runs [2 ^ bfs_fuel h] of them, which [graphBfs_enough_fuel] below shows
    to be more than the loop can take. *)
Definition bfs_fuel (h : heap) : nat :=
  S (length h * max_list (length ∘ nextNodes <$> h)).

(** Third loop: number the components. *)
Fixpoint assignGroups (m : jsmap) (keys : list loc) (cnt : Z) (h : heap)
    : completion heap Z :=
  match keys with
  | [] => Normal h cnt
  | node :: keys =>
      match map_get node m with
      | None => Throw h
      | Some shellNode =>
          match h !! shellNode with
          | None => Throw h
          | Some o =>
              if decide (g o = Some (-1)) then
                let h := <[shellNode := Obj (val o) (nextNodes o) (Some cnt)]> h in
                match graphBfs nextNodes_of (markGroup shellNode) (bfs_fuel h) shellNode h with
                | Normal h _ => assignGroups m keys (cnt + 1) h
                | Throw h => Throw h
                | OutOfFuel => OutOfFuel
                end
              else assignGroups m keys cnt h
          end
      end
  end.

(** Modelled from the spec: [newMatrix] of [./util], which is not among the
    sources; the groups are "indexed by their shell node's final group
    identifier", so [newMatrix(cnt)] is an array of [cnt] empty arrays. *)
Definition newMatrix (n : Z) : list (list loc) := replicate (Z.to_nat n) [].

(** Fourth loop: [group[shellNode.g].push(node)]. *)
Fixpoint fillGroups (m : jsmap) (keys : list loc) (h : heap) (group : list (list loc))
    : completion heap (list (list loc)) :=
  match keys with
  | [] => Normal h group
  | node :: keys =>
      match map_get node m ≫= λ shellNode, h !! shellNode with
      | None => Throw h
      | Some o =>
          match g o with
          | Some i =>
              if decide (0 ≤ i) then
                match group !! Z.to_nat i with
                | None => Throw h
                | Some row => fillGroups m keys h (<[Z.to_nat i := row ++ [node]]> group)
                end
              else Throw h
          | None => Throw h
          end
      end
  end.

Definition getConnectedComponent (nodes : list loc) (h : heap)
    : completion heap (list (list loc)) :=
  let '(node2shellNodes, h) := makeShells nodes [] h in
  match linkShells node2shellNodes nodes h with
  | Normal h _ =>
      match assignGroups node2shellNodes (map_keys node2shellNodes) 0 h with
      | Normal h cnt => fillGroups node2shellNodes (map_keys node2shellNodes) h (newMatrix cnt)
      | Throw h => Throw h
      | OutOfFuel => OutOfFuel
      end
  | Throw h => Throw h
  | OutOfFuel => OutOfFuel
  end.


(** ** Definitions used by the statements *)

Section GraphBfsRun.
Context {St : Type}.
Variable neighbours : St → loc → option (list loc).
Variable step : loc → St → St * option jsval.

(** Exactly [n] iterations of the loop, unless it ends before. *)
Fixpoint graphBfs_run (n : nat) (σ : bfs_state) : bfs_iter :=
  match n with
  | O => Continue σ
  | S n =>
      match graphBfs_iter neighbours step σ with
      | Continue σ => graphBfs_run n σ
      | r => r
      end
  end.
End GraphBfsRun.

(** A bound on the iterations left, for a graph whose nodes with a
    neighbour list are among [univ] and have at most [D] neighbours. *)
Section Measure.
Variable univ : list loc.
Variable D : nat.

Fixpoint tree_bound (u : nat) : nat :=
  match u with
  | O => 1
  | S u => S (D * tree_bound u)
  end%nat.

Definition unvisited (V : gset loc) : nat := length (filter (λ x, x ∉ V) univ).

Definition weight (V : gset loc) (x : loc) : nat :=
  if decide (x ∈ univ) then
    if decide (x ∈ V) then tree_bound (S (unvisited V)) else tree_bound (unvisited V)
  else 1%nat.

Definition bfs_measure (V : gset loc) (q : list loc) : nat :=
  sum_list_with (weight V) q.
End Measure.

(** [u → v]: [v] is an element of [u.nextNodes] in the store [h]. *)
Definition edge (h : heap) (u v : loc) : Prop :=
  ∃ o, h !! u = Some o ∧ v ∈ nextNodes o.

(** The input collection is closed: each of its elements is an object, and
    every successor of an element is an element. *)
Definition closed (h : heap) (nodes : list loc) : Prop :=
  Forall (λ u, from_option (λ o, Forall (λ v, v ∈ nodes) (nextNodes o)) False (h !! u)) nodes.

#[global] Instance closed_dec h nodes : Decision (closed h nodes).
Proof.
  unfold closed. apply Forall_dec. intros u.
  destruct (h !! u); simpl; apply _.
Defined.

(** An input edge leaves an element of the collection. *)
Definition input_edge (h : heap) (nodes : list loc) (u v : loc) : Prop :=
  u ∈ nodes ∧ edge h u v.

(** A path of input edges, each taken in either direction. *)
Definition connected (h : heap) (nodes : list loc) : relation loc :=
  rtsc (input_edge h nodes).

Definition same_group (groups : list (list loc)) (u v : loc) : Prop :=
  ∃ gr, gr ∈ groups ∧ u ∈ gr ∧ v ∈ gr.

(** The elements of the input in the order of their first occurrence. *)
Definition input_order (nodes : list loc) : list loc :=
  foldl (λ seen node, if decide (node ∈ seen) then seen else seen ++ [node]) [] nodes.

(** [x] stands before [y] in [l]. *)
Definition before (l : list loc) (x y : loc) : Prop :=
  ∃ i j, (i < j)%nat ∧ l !! i = Some x ∧ l !! j = Some y.

(** The shell nodes of the map [m] in the store [h]: they lie past the
    first [n0] objects, carry their key as [val], and their neighbours are
    shell nodes again, of keys related by [R]. *)
Definition shells_wf (R : relation loc) (n0 : nat) (m : jsmap) (h : heap) : Prop :=
  ∀ k s, map_get k m = Some s →
    (n0 ≤ s)%nat ∧ ∃ o, h !! s = Some o ∧ val o = Some k ∧
      ∀ t, t ∈ nextNodes o → ∃ k', map_get k' m = Some t ∧ R k k'.

(** No shell node of [m] has a group yet. *)
Definition unassigned (m : jsmap) (h : heap) : Prop :=
  ∀ k s o, map_get k m = Some s → h !! s = Some o → g o = Some (-1).

(** What the second loop keeps: the objects of the store [h0] it started
    from are as they were, and the shell nodes are well formed and without
    a group. *)
Definition link_inv (R : relation loc) (h0 : heap) (m : jsmap) (h : heap) : Prop :=
  h0 `prefix_of` h ∧ shells_wf R (length h0) m h ∧ unassigned m h.

(** The object [o] once the callback has written the group [gv] to it. *)
Definition marked (gv : option Z) (o : obj) : obj := Obj (val o) (nextNodes o) gv.

(** What the group propagation from [root] keeps, [h] being the store it
    started from: the visited objects are marked, visited and queued locations
    are reachable from [root], and an edge out of a visited location ends in a
    visited or queued one. *)
Definition mark_inv (h : heap) (root : loc) (gv : option Z) (σ : @bfs_state heap) : Prop :=
  (∀ l, store σ !! l =
     (λ o, if decide (l ∈ visitedNodes σ) then marked gv o else o) <$> h !! l) ∧
  (∀ x, x ∈ visitedNodes σ ∨ x ∈ queue σ → rtc (edge h) root x) ∧
  (∀ x y, x ∈ visitedNodes σ → edge h x y → y ∈ visitedNodes σ ∨ y ∈ queue σ) ∧
  (root ∈ visitedNodes σ ∨ root ∈ queue σ).

(** The stores the callback can produce from [h]: same size, same
    neighbour lists. *)
Definition same_graph (h s : heap) : Prop :=
  length s = length h ∧ ∀ l, nextNodes <$> s !! l = nextNodes <$> h !! l.

(** The group written on the shell node of [k], as the fourth loop reads it. *)
Definition gid (m : jsmap) (h : heap) (k : loc) : option Z :=
  (map_get k m ≫= λ shellNode, h !! shellNode) ≫= g.

(** Every input edge has its two shell edges in [h]. *)
Definition mirrored (h0 : heap) (nodes : list loc) (m : jsmap) (h : heap) : Prop :=
  ∀ u v, u ∈ nodes → edge h0 u v →
    ∃ s t, map_get u m = Some s ∧ map_get v m = Some t ∧ edge h s t ∧ edge h t s.

(** What the third loop keeps, [done] being the keys already passed and
    [cnt] the next group number. *)
Definition assign_inv (h0 : heap) (nodes : list loc) (m : jsmap)
    (done : list loc) (cnt : Z) (h : heap) : Prop :=
  h0 `prefix_of` h ∧
  shells_wf (sc (input_edge h0 nodes)) (length h0) m h ∧
  mirrored h0 nodes m h ∧
  0 ≤ cnt ∧
  (∀ k, k ∈ nodes → ∃ z, gid m h k = Some z ∧ (z = -1 ∨ 0 ≤ z < cnt)) ∧
  (∀ k, k ∈ done → gid m h k ≠ Some (-1)) ∧
  (∀ k k' z, k ∈ nodes → gid m h k = Some z → z ≠ -1 →
     connected h0 nodes k k' → gid m h k' = Some z) ∧
  (∀ k k' z, k ∈ nodes → k' ∈ nodes → gid m h k = Some z → gid m h k' = Some z →
     z ≠ -1 → connected h0 nodes k k') ∧
  (∀ z, 0 ≤ z < cnt → ∃ k, k ∈ done ∧ gid m h k = Some z) ∧
  (∀ k z z', k ∈ nodes → gid m h k = Some z → 0 ≤ z' < z →
     ∃ k', before (map_keys m) k' k ∧ gid m h k' = Some z').

(** The keys bucketed by a numbering [f], group by group. *)
Definition groups_of (f : loc → option Z) (cnt : Z) (keys : list loc) : list (list loc) :=
  (λ i : nat, filter (λ k, f k = Some (Z.of_nat i)) keys) <$> seq 0 (Z.to_nat cnt).

(** [f] numbers the connected components of the input from [0] to
    [cnt - 1], in the order in which the input first meets them. *)
Definition numbering (h : heap) (nodes : list loc) (f : loc → option Z) (cnt : Z) : Prop :=
  0 ≤ cnt ∧
  (∀ k, k ∈ nodes → ∃ z, f k = Some z ∧ 0 ≤ z < cnt) ∧
  (∀ k k', k ∈ nodes → k' ∈ nodes → f k = f k' ↔ connected h nodes k k') ∧
  (∀ z, 0 ≤ z < cnt → ∃ k, k ∈ nodes ∧ f k = Some z) ∧
  (∀ k z z', k ∈ nodes → f k = Some z → 0 ≤ z' < z →
     ∃ k', before (input_order nodes) k' k ∧ f k' = Some z').

(** ** Example inputs *)

(** An input node with the given successors and no other property. *)
Definition node_obj (next : list loc) : obj := Obj None next None.

(** [A → B], [C → D]. *)
Definition two_pairs : heap := [node_obj [1]; node_obj []; node_obj [3]; node_obj []]%nat.

(** [A → B], [A → C], [B → C]. *)
Definition triangle : heap := [node_obj [1; 2]; node_obj [2]; node_obj []]%nat.

(** [A → B → C → A], and [A → A]. *)
Definition cycle : list (list loc) := [[0; 1]; [2]; [0]]%nat.

(** [R → A], [R → B], [A → C], [B → C]. *)
Definition diamond : list (list loc) := [[1; 2]; [3]; [3]; []]%nat.

(** A callback that records the node it is given and returns [false]. *)
Definition record_call (c : loc) (calls : list loc) : list loc * option jsval :=
  (calls ++ [c], Some (JBool false)).

(** A callback that records the node it is given and returns a number:
    [1] at node [0], [0] elsewhere. *)
Definition stop_at_first (c : loc) (calls : list loc) : list loc * option jsval :=
  (calls ++ [c], Some (JNum (if decide (c = 0%nat) then 1 else 0))).

(** A callback wrapped so that the nodes it is called with are recorded
    next to its own state. *)
Definition spy {St : Type} (step : loc → St → St * option jsval)
    (c : loc) (s : St * list loc) : (St * list loc) * option jsval :=
  let '(s', r) := step c s.1 in ((s', s.2 ++ [c]), r).

(** The store after the first two loops on [triangle]: shell nodes [3], [4]
    and [5] for [A], [B] and [C]. *)
Definition triangle_linked : heap :=
  triangle ++ [Obj (Some 0%nat) [4; 5]%nat (Some (-1));
               Obj (Some 1%nat) [3; 5]%nat (Some (-1));
               Obj (Some 2%nat) [3; 4]%nat (Some (-1))].

(** [B → A], [B → B], [A → B], with the input naming [A] twice. *)
Definition twice_named : heap := [node_obj [1]; node_obj [0; 1]]%nat.

(** ** Further definitions and example inputs *)

(** [u] and [v] are joined by an edge of [h], whichever way it points. *)
Definition adjacent (h : heap) (u v : loc) : Prop :=
  v ∈ from_option nextNodes [] (h !! u) ∨ u ∈ from_option nextNodes [] (h !! v).

#[global] Instance adjacent_dec h u v : Decision (adjacent h u v).
Proof. unfold adjacent. apply _. Defined.

(** The stores [h1] and [h2] join the same pairs of [nodes]. *)
Definition same_links (h1 h2 : heap) (nodes : list loc) : Prop :=
  Forall (λ u, Forall (λ v, adjacent h1 u v ↔ adjacent h2 u v) nodes) nodes.

#[global] Instance same_links_dec h1 h2 nodes : Decision (same_links h1 h2 nodes).
Proof. unfold same_links. apply _. Defined.

(** [A → B] with [B] left out of the input. *)
Definition open_pair : heap := [node_obj [1]; node_obj []]%nat.

(** [triangle] with every edge turned round. *)
Definition triangle_reversed : heap := [node_obj []; node_obj [0]; node_obj [0; 1]]%nat.

(** [A → B], [C → D], and [E] on its own. *)
Definition two_pairs_and_one : heap := two_pairs ++ [node_obj []].

(** The two stores hold objects with the same [val] at every location. *)
Definition same_vals (h h' : heap) : Prop :=
  ∀ l, val <$> h' !! l = val <$> h !! l.

(** A property of the state a call leaves, however it ends. *)
Definition leaves {St A} (P : St → Prop) (c : completion St A) : Prop :=
  match c with
  | Normal h _ | Throw h => P h
  | OutOfFuel => True
  end.

(** [x → y] in the adjacency table [graph]. *)
Definition gedge (graph : list (list loc)) (x y : loc) : Prop :=
  ∃ next, graph !! x = Some next ∧ y ∈ next.

(** Fuel that a traversal of [graph] cannot use up. *)
Definition graph_fuel (graph : list (list loc)) : nat :=
  S (max_list (length <$> graph) * length graph).

(** The callback never throws and never returns a truthy value. *)
Definition never_stops {St : Type} (step : loc → St → St * option jsval) : Prop :=
  ∀ c s, ∃ r, (step c s).2 = Some r ∧ truthy r = false.

(** The state after the callback has been called on the nodes of [l] in
    turn. *)
Definition after_calls {St : Type} (step : loc → St → St * option jsval)
    (s : St) (l : list loc) : St :=
  foldl (λ s c, (step c s).1) s l.

(** The state an iteration hands on or ends with. *)
Definition iter_store {St : Type} (r : @bfs_iter St) : St :=
  match r with
  | Continue σ => store σ
  | Finished s | Raise s => s
  end.

(** What a traversal of [graph] from [root] with a recording callback
    keeps: the visited nodes are the recorded ones, visited and queued nodes
    are reachable from [root], and [root] is the first node recorded. *)
Definition visit_inv {St : Type} (graph : list (list loc)) (root : loc)
    (σ : @bfs_state (St * list loc)) : Prop :=
  (∀ x, x ∈ visitedNodes σ ↔ x ∈ (store σ).2) ∧
  (∀ x, x ∈ visitedNodes σ ∨ x ∈ queue σ → rtc (gedge graph) root x) ∧
  match (store σ).2 with
  | [] => queue σ = [root]
  | c :: _ => c = root
  end.

(** With a callback that never stops, moreover: every visited node has a
    neighbour list, and an edge out of a visited node ends in a visited or
    queued one. *)
Definition cover_inv {St : Type} (graph : list (list loc)) (root : loc)
    (σ : @bfs_state (St * list loc)) : Prop :=
  visit_inv graph root σ ∧
  (∀ x, x ∈ visitedNodes σ → is_Some (graph !! x)) ∧
  (∀ x y, x ∈ visitedNodes σ → gedge graph x y →
     y ∈ visitedNodes σ ∨ y ∈ queue σ).

(** Generations below a list of nodes, for nodes that all have a
    [nextNodes] array. *)
Section Levels.
Variable children : loc → list loc.

Definition next_level (q : list loc) : list loc := q ≫= children.

(** The [d]-th generation below [q]. *)
Fixpoint level (d : nat) (q : list loc) : list loc :=
  match d with
  | O => q
  | S d => level d (next_level q)
  end.

(** The first [d] generations, one after the other. *)
Fixpoint level_order (d : nat) (q : list loc) : list loc :=
  match d with
  | O => []
  | S d => q ++ level_order d (next_level q)
  end.
End Levels.

(** The successors in an adjacency table; none for a node outside of it. *)
Definition table_children (graph : list (list loc)) (c : loc) : list loc :=
  default [] (graph !! c).

(** A tree: [R → A], [R → B], [A → C]. *)
Definition small_tree : list (list loc) := [[1; 2]; [3]; []; []]%nat.



(** ** The traversal loop *)

Section GraphBfsFacts.
Context {St : Type}.
Variable neighbours : St → loc → option (list loc).
Variable step : loc → St → St * option jsval.

Local Abbreviation iter := (graphBfs_iter neighbours step).
Local Abbreviation run := (graphBfs_run neighbours step).
Local Abbreviation loop := (graphBfs_loop neighbours step).

Lemma push_unvisited_filter V q next :
  push_unvisited V q next = q ++ filter (λ x, x ∉ V) next.
Proof.
  revert q. induction next as [|x next IH]; intros q; simpl.
  - by rewrite app_nil_r.
  - rewrite IH, filter_cons.
    destruct (decide (x ∈ V)), (decide (x ∉ V)); try done.
    by rewrite <- app_assoc.
Qed.

Lemma run_add a b σ :
  run (a + b) σ = match run a σ with Continue σ' => run b σ' | r => r end.
Proof.
  revert σ. induction a as [|a IH]; intros σ; simpl; [done|].
  destruct (iter σ); auto.
Qed.

Lemma loop_run k σ : loop k σ = run (2 ^ k) σ.
Proof.
  revert σ. induction k as [|k IH]; intros σ.
  - simpl. by destruct (iter σ).
  - replace (2 ^ S k)%nat with (2 ^ k + 2 ^ k)%nat by (simpl; lia).
    rewrite run_add. simpl. rewrite IH.
    destruct (run (2 ^ k) σ); auto.
Qed.

(** A property of the loop state kept by every iteration holds when the
    loop is left, whichever way. *)
Lemma run_invariant (P : bfs_state → Prop) :
  (∀ σ σ', P σ → iter σ = Continue σ' → P σ') →
  ∀ n σ, P σ →
    match run n σ with
    | Continue σ' => P σ'
    | Finished s => ∃ σ', P σ' ∧ queue σ' = [] ∧ store σ' = s
    | Raise s => ∃ σ', P σ' ∧ iter σ' = Raise s
    end.
Proof.
  intros Hkeep n. induction n as [|n IH]; intros σ Hσ; simpl; [done|].
  destruct (iter σ) as [σ'|s|s] eqn:Hit.
  - apply IH. eauto.
  - exists σ. split; [done|]. unfold graphBfs_iter in Hit.
    destruct (queue σ) as [|c q]; [by simplify_eq|].
    destruct (step c (store σ)) as [s' [r|]]; [|done].
    destruct (negb (truthy r)); [|done]. by destruct (neighbours s' c).
  - eauto.
Qed.
End GraphBfsFacts.

Section GraphBfsStop.
Context {St : Type}.
Variable neighbours : St → loc → option (list loc).
Variable step : loc → St → St * option jsval.

(** Once the loop is left, more fuel changes nothing. *)
Lemma graphBfs_run_more n n' σ :
  (n ≤ n')%nat →
  match graphBfs_run neighbours step n σ with
  | Continue _ => True
  | r => graphBfs_run neighbours step n' σ = r
  end.
Proof.
  intros Hle. replace n' with (n + (n' - n))%nat by lia.
  rewrite run_add. by destruct (graphBfs_run neighbours step n σ).
Qed.
End GraphBfsStop.

(** ** Termination of the traversal *)

Lemma unvisited_insert_le univ c V :
  (unvisited univ ({[c]} ∪ V) ≤ unvisited univ V)%nat.
Proof.
  unfold unvisited. induction univ as [|x l IH]; simpl; [done|].
  rewrite !filter_cons.
  destruct (decide (x ∉ {[c]} ∪ V)), (decide (x ∉ V)); simpl; try lia.
  set_solver.
Qed.

Section MeasureFacts.
Variable univ : list loc.
Variable D : nat.

Local Abbreviation tb := (tree_bound D).
Local Abbreviation unv := (unvisited univ).
Local Abbreviation wt := (weight univ D).
Local Abbreviation mu := (bfs_measure univ D).

Lemma tree_bound_pos u : (1 ≤ tb u)%nat.
Proof. destruct u; simpl; lia. Qed.

Lemma tree_bound_mono u u' : (u ≤ u')%nat → (tb u ≤ tb u')%nat.
Proof.
  induction 1 as [|u' _ IH]; [done|].
  etrans; [apply IH|]. clear IH.
  induction u' as [|u' IH]; simpl in *; [lia|].
  apply le_n_S, Nat.mul_le_mono_l, IH.
Qed.

Lemma tree_bound_pow u : (tb u ≤ 2 ^ (D * u))%nat.
Proof.
  induction u as [|u IH]; simpl.
  - rewrite Nat.mul_0_r. simpl. lia.
  - replace (D * S u)%nat with (D + D * u)%nat by lia.
    rewrite Nat.pow_add_r.
    assert (S D ≤ 2 ^ D)%nat as HD.
    { clear. induction D as [|d IHd]; simpl; lia. }
    pose proof (tree_bound_pos u).
    transitivity (S D * tb u)%nat; [lia|].
    by apply Nat.mul_le_mono.
Qed.

Lemma unvisited_insert_lt c V :
  c ∈ univ → c ∉ V → (unv ({[c]} ∪ V) < unv V)%nat.
Proof.
  unfold unvisited. induction univ as [|x l IH]; [by intros ?%elem_of_nil|].
  intros [Heq|Hin]%elem_of_cons Hc; rewrite !filter_cons.
  - subst x. destruct (decide (c ∉ {[c]} ∪ V)); [set_solver|].
    destruct (decide (c ∉ V)); [|done]. simpl.
    apply Nat.lt_succ_r, (unvisited_insert_le l c V).
  - specialize (IH Hin Hc).
    destruct (decide (x ∉ {[c]} ∪ V)), (decide (x ∉ V)); simpl; try lia.
    set_solver.
Qed.

Lemma unvisited_insert_outside c V : c ∉ univ → unv ({[c]} ∪ V) = unv V.
Proof.
  unfold unvisited. induction univ as [|x l IH]; [done|].
  intros Hc. apply not_elem_of_cons in Hc as [Hne Hc].
  specialize (IH Hc). rewrite !filter_cons.
  destruct (decide (x ∉ {[c]} ∪ V)), (decide (x ∉ V)); simpl;
    try (by rewrite IH); set_solver.
Qed.

Lemma weight_pos V x : (1 ≤ wt V x)%nat.
Proof.
  unfold weight. repeat case_decide; auto using tree_bound_pos.
Qed.

Lemma weight_insert_le c V y : (wt ({[c]} ∪ V) y ≤ wt V y)%nat.
Proof.
  destruct (decide (c ∈ V)) as [HcV|HcV].
  { replace ({[c]} ∪ V) with V by set_solver. done. }
  unfold weight. destruct (decide (y ∈ univ)) as [Hy|Hy]; [|done].
  destruct (decide (c ∈ univ)) as [Hc|Hc].
  - pose proof (unvisited_insert_lt c V Hc HcV).
    destruct (decide (y ∈ {[c]} ∪ V)), (decide (y ∈ V));
      apply tree_bound_mono; lia.
  - rewrite unvisited_insert_outside by done.
    destruct (decide (y ∈ {[c]} ∪ V)), (decide (y ∈ V)); try done; set_solver.
Qed.

Lemma measure_insert_le c V q : (mu ({[c]} ∪ V) q ≤ mu V q)%nat.
Proof.
  unfold bfs_measure. induction q as [|y q IH]; simpl; [done|].
  pose proof (weight_insert_le c V y). lia.
Qed.

Lemma measure_app V q q' : mu V (q ++ q') = (mu V q + mu V q')%nat.
Proof. apply sum_list_with_app. Qed.

Lemma measure_pushed V next :
  (length next ≤ D)%nat →
  (mu V (filter (λ x, x ∉ V) next) ≤ D * tb (unv V))%nat.
Proof.
  intros Hlen. transitivity (length next * tb (unv V))%nat.
  - clear Hlen. unfold bfs_measure.
    induction next as [|x next IH]; simpl; [done|]. rewrite filter_cons.
    destruct (decide (x ∉ V)) as [Hx|Hx]; simpl; [|lia].
    assert (wt V x ≤ tb (unv V))%nat; [|lia].
    unfold weight. repeat case_decide; try done. apply tree_bound_pos.
  - by apply Nat.mul_le_mono_r.
Qed.

Lemma weight_expanded c V :
  c ∈ univ → (D * tb (unv ({[c]} ∪ V)) < wt V c)%nat.
Proof.
  intros Hc. unfold weight. rewrite decide_True by done.
  destruct (decide (c ∈ V)) as [HcV|HcV].
  - replace ({[c]} ∪ V) with V by set_solver. simpl. lia.
  - pose proof (unvisited_insert_lt c V Hc HcV) as Hlt.
    destruct (unv V) as [|u] eqn:Hu; [lia|]. simpl.
    apply Nat.lt_succ_r, Nat.mul_le_mono_l, tree_bound_mono. lia.
Qed.
End MeasureFacts.

Section GraphBfsTermination.
Context {St : Type}.
Variable neighbours : St → loc → option (list loc).
Variable step : loc → St → St * option jsval.
(** The nodes that have a neighbour list are among [univ], none has more
    than [D] neighbours, in every state [I] the callback can lead to. *)
Variable univ : list loc.
Variable D : nat.
Variable I : St → Prop.
Hypothesis I_step : ∀ c s, I s → I (step c s).1.
Hypothesis neighbours_bound :
  ∀ s c next, I s → neighbours s c = Some next → c ∈ univ ∧ (length next ≤ D)%nat.

Local Abbreviation iter := (graphBfs_iter neighbours step).
Local Abbreviation run := (graphBfs_run neighbours step).
Local Abbreviation mu := (λ σ : @bfs_state St, bfs_measure univ D (visitedNodes σ) (queue σ)).

Lemma iter_decreases σ σ' :
  I (store σ) → iter σ = Continue σ' → I (store σ') ∧ (mu σ' < mu σ)%nat.
Proof.
  intros HI. unfold graphBfs_iter. destruct σ as [[|c q] V s]; simpl; [done|].
  pose proof (I_step c s HI) as HI'.
  destruct (step c s) as [s' [r|]]; [|done]. simpl in HI'.
  pose proof (measure_insert_le univ D c V q) as Hq.
  destruct (negb (truthy r)).
  - destruct (neighbours s' c) as [next|] eqn:Hnb; [|done].
    intros [= <-]. simpl. split; [done|].
    destruct (neighbours_bound _ _ _ HI' Hnb) as [Hc Hlen].
    rewrite push_unvisited_filter, measure_app.
    pose proof (measure_pushed univ D ({[c]} ∪ V) next Hlen).
    pose proof (weight_expanded univ D c V Hc).
    unfold bfs_measure at 3. simpl. fold (bfs_measure univ D V q). lia.
  - intros [= <-]. simpl. split; [done|].
    pose proof (weight_pos univ D V c).
    unfold bfs_measure at 2. simpl. fold (bfs_measure univ D V q). lia.
Qed.

Lemma run_decreases n σ σ' :
  I (store σ) → run n σ = Continue σ' → I (store σ') ∧ (n + mu σ' ≤ mu σ)%nat.
Proof.
  revert σ. induction n as [|n IH]; intros σ HI; simpl.
  - intros [= <-]. split; [done|lia].
  - destruct (iter σ) as [σ1| |] eqn:Hit; try done.
    destruct (iter_decreases _ _ HI Hit) as [HI1 Hlt].
    intros Hrun. destruct (IH _ HI1 Hrun) as [? ?]. split; [done|lia].
Qed.

(** With more than [D * length univ] units of fuel the loop is left before
    the fuel is. *)
Lemma graphBfs_enough_fuel fuel root s :
  I s → (D * length univ < fuel)%nat →
  graphBfs neighbours step fuel root s ≠ OutOfFuel.
Proof.
  intros HI Hfuel. unfold graphBfs. rewrite loop_run.
  destruct (run (2 ^ fuel) (BfsState [root] ∅ s)) as [σ'| |] eqn:Hrun; try done.
  apply run_decreases in Hrun as [_ Hle]; [|done]. exfalso.
  revert Hle. unfold bfs_measure. simpl.
  assert (weight univ D ∅ root ≤ tree_bound D (length univ))%nat as Hw.
  { unfold weight. repeat case_decide; try set_solver.
    - apply tree_bound_mono. unfold unvisited. apply length_filter.
    - apply tree_bound_pos. }
  pose proof (tree_bound_pow D (length univ)) as Hpow.
  assert (2 ^ (D * length univ) < 2 ^ fuel)%nat.
  { apply Nat.pow_lt_mono_r; lia. }
  lia.
Qed.
End GraphBfsTermination.

(** ** The insertion-ordered map *)

Lemma map_get_set k v k' m :
  map_get k' (map_set k v m) = if decide (k = k') then Some v else map_get k' m.
Proof.
  induction m as [|[k0 v0] m IH]; simpl.
  - repeat case_decide; by simplify_eq.
  - destruct (decide (k0 = k)) as [Heq|Hne]; simpl; rewrite ?IH;
      repeat case_decide; by simplify_eq.
Qed.

Lemma map_get_keys k m : is_Some (map_get k m) ↔ k ∈ map_keys m.
Proof.
  unfold map_keys. induction m as [|[k0 v0] m IH]; simpl.
  - split; [by intros [? ?]|by intros ?%elem_of_nil].
  - rewrite elem_of_cons. destruct (decide (k0 = k)) as [->|Hne].
    + split; eauto.
    + rewrite IH. naive_solver.
Qed.

Lemma map_keys_set k v m :
  map_keys (map_set k v m) =
    if decide (k ∈ map_keys m) then map_keys m else map_keys m ++ [k].
Proof.
  unfold map_keys. induction m as [|[k0 v0] m IH].
  - destruct (decide (k ∈ [].*1)) as [Hin|]; [|done]. by apply elem_of_nil in Hin.
  - cbn [map_set]. destruct (decide (k0 = k)) as [->|Hne].
    + destruct (decide (k ∈ ((k, v0) :: m).*1)) as [|Hnin]; [done|].
      destruct Hnin. rewrite fmap_cons. by left.
    + rewrite !fmap_cons, IH. cbn [fst].
      destruct (decide (k ∈ m.*1)), (decide (k ∈ k0 :: m.*1)) as [Hin|Hnin];
        try done.
      * destruct Hnin. by right.
      * apply elem_of_cons in Hin. naive_solver.
Qed.

Lemma input_order_step (seen nodes : list loc) :
  NoDup seen →
  let keys := foldl (λ seen node, if decide (node ∈ seen) then seen else seen ++ [node])
                    seen nodes in
  NoDup keys ∧ ∀ k, k ∈ keys ↔ k ∈ seen ∨ k ∈ nodes.
Proof.
  revert seen. induction nodes as [|x nodes IH]; intros seen Hnd; simpl.
  - split; [done|]. intros k. rewrite elem_of_nil. naive_solver.
  - destruct (decide (x ∈ seen)) as [Hx|Hx].
    + destruct (IH seen Hnd) as [? Hiff]. split; [done|].
      intros k. rewrite Hiff, elem_of_cons. naive_solver.
    + destruct (IH (seen ++ [x])) as [? Hiff].
      { apply NoDup_app. split_and!; [done| |apply NoDup_singleton].
        intros y Hy ->%list_elem_of_singleton. done. }
      split; [done|]. intros k.
      rewrite Hiff, elem_of_app, list_elem_of_singleton, elem_of_cons. naive_solver.
Qed.

Lemma input_order_NoDup nodes : NoDup (input_order nodes).
Proof. apply (input_order_step [] nodes), NoDup_nil_2. Qed.

Lemma input_order_elem_of nodes k : k ∈ input_order nodes ↔ k ∈ nodes.
Proof.
  destruct (input_order_step [] nodes (NoDup_nil_2 )) as [_ Hiff].
  unfold input_order. rewrite Hiff, elem_of_nil. naive_solver.
Qed.

Lemma input_order_NoDup_id nodes : NoDup nodes → input_order nodes = nodes.
Proof.
  unfold input_order. intros Hnd.
  assert (∀ seen, NoDup (seen ++ nodes) →
    foldl (λ seen node, if decide (node ∈ seen) then seen else seen ++ [node])
      seen nodes = seen ++ nodes) as Hgen; [|by apply (Hgen [])].
  clear Hnd. induction nodes as [|x nodes IH]; intros seen Hnd; simpl.
  - by rewrite app_nil_r.
  - apply NoDup_app in Hnd as Hnd'. destruct Hnd' as (_ & Hdisj & _).
    rewrite decide_False by (intros Hx; apply (Hdisj x Hx); left).
    rewrite IH; [by rewrite <- app_assoc|].
    by rewrite <- app_assoc.
Qed.

(** ** First loop *)

Lemma makeShells_spec nodes m h m' h' :
  makeShells nodes m h = (m', h') →
  h' = h ++ (shell <$> nodes) ∧
  map_keys m' =
    foldl (λ seen node, if decide (node ∈ seen) then seen else seen ++ [node])
      (map_keys m) nodes ∧
  ∀ k s, map_get k m' = Some s →
    ((k ∉ nodes) ∧ map_get k m = Some s) ∨
    (∃ i, nodes !! i = Some k ∧ s = (length h + i)%nat).
Proof.
  revert m h. induction nodes as [|x nodes IH]; intros m h; simpl.
  - intros [= <- <-]. rewrite app_nil_r. split_and!; [done..|].
    intros k s Hk. left. split; [apply not_elem_of_nil|done].
  - intros Hmk. apply IH in Hmk as (-> & Hkeys & Hget).
    rewrite <- app_assoc. split_and!; [done| |].
    + by rewrite Hkeys, map_keys_set.
    + intros k s Hk. apply Hget in Hk as [[Hnin Hk]|(i & Hi & ->)].
      * rewrite map_get_set in Hk. destruct (decide (x = k)) as [->|Hne].
        -- right. exists 0%nat. simplify_eq. split; [done|lia].
        -- left. split; [|done]. rewrite elem_of_cons. naive_solver.
      * right. exists (S i). split; [done|]. rewrite length_app. simpl. lia.
Qed.

Lemma makeShells_keys nodes h m' h' :
  makeShells nodes [] h = (m', h') → map_keys m' = input_order nodes.
Proof. by intros (_ & ? & _)%makeShells_spec. Qed.

Lemma makeShells_get nodes h m' h' k s :
  makeShells nodes [] h = (m', h') → map_get k m' = Some s →
  k ∈ nodes ∧ (length h ≤ s < length h')%nat ∧ h' !! s = Some (shell k).
Proof.
  intros (-> & _ & Hget)%makeShells_spec Hk.
  apply Hget in Hk as [[_ ?]|(i & Hi & ->)]; [done|].
  split; [by eapply list_elem_of_lookup_2|].
  apply lookup_lt_Some in Hi as Hlt.
  rewrite length_app, length_fmap. split; [lia|].
  rewrite lookup_app_r by lia.
  replace (length h + i - length h)%nat with i by lia.
  by rewrite list_lookup_fmap, Hi.
Qed.

(** ** Second loop *)

Lemma push_nextNodes_lookup target x h h' l :
  push_nextNodes target x h = Some h' →
  h' !! l =
    if decide (l = target)
    then (λ o, Obj (val o) (nextNodes o ++ [x]) (g o)) <$> h !! l
    else h !! l.
Proof.
  unfold push_nextNodes. destruct (h !! target) as [o|] eqn:Ho; simpl; [|done].
  intros [= <-]. destruct (decide (l = target)) as [->|Hne].
  - rewrite list_lookup_insert_eq by (by eapply lookup_lt_Some). by rewrite Ho.
  - by rewrite list_lookup_insert_ne.
Qed.

Lemma push_nextNodes_is_Some target x h :
  is_Some (h !! target) → is_Some (push_nextNodes target x h).
Proof. intros [o Ho]. unfold push_nextNodes. rewrite Ho. simpl. eauto. Qed.

Lemma push_nextNodes_edge target x h h' a b :
  push_nextNodes target x h = Some h' → edge h a b → edge h' a b.
Proof.
  intros Hp (o & Ho & Hb). unfold edge.
  rewrite (push_nextNodes_lookup _ _ _ _ a Hp), Ho.
  destruct (decide (a = target)); simpl; eauto.
  eexists. split; [done|]. simpl. apply elem_of_app. by left.
Qed.

Lemma push_nextNodes_new_edge target x h h' :
  push_nextNodes target x h = Some h' → edge h' target x.
Proof.
  intros Hp. unfold edge. rewrite (push_nextNodes_lookup _ _ _ _ target Hp).
  rewrite decide_True by done.
  unfold push_nextNodes in Hp. destruct (h !! target) as [o|]; [|done]. simpl.
  eexists. split; [done|]. simpl. apply elem_of_app. right. by left.
Qed.

Lemma prefix_insert_ge (h0 h : heap) s o :
  h0 `prefix_of` h → (length h0 ≤ s)%nat → h0 `prefix_of` <[s:=o]> h.
Proof.
  intros [k ->] Hs. rewrite insert_app_r_alt by done. by eexists.
Qed.

Lemma prefix_lookup_lt (h0 h : heap) l :
  h0 `prefix_of` h → (l < length h0)%nat → h !! l = h0 !! l.
Proof. intros [k ->] Hl. by rewrite lookup_app_l. Qed.

Lemma push_nextNodes_prefix (h0 : heap) target x h h' :
  push_nextNodes target x h = Some h' →
  h0 `prefix_of` h → (length h0 ≤ target)%nat → h0 `prefix_of` h'.
Proof.
  unfold push_nextNodes. destruct (h !! target) as [o|]; simpl; [|done].
  intros [= <-] ? ?. by apply prefix_insert_ge.
Qed.

Section LinkPhase.
Variable R : relation loc.
Variable h0 : heap.
Variable m : jsmap.

Local Abbreviation link_inv := (link_inv R h0 m).

Lemma push_nextNodes_inv k s k' t h :
  link_inv h → map_get k m = Some s → map_get k' m = Some t → R k k' →
  ∃ h', push_nextNodes s t h = Some h' ∧ link_inv h'.
Proof.
  intros (Hpre & Hwf & Hun) Hs Ht HR.
  destruct (Hwf _ _ Hs) as (Hge & o & Ho & _).
  destruct (push_nextNodes_is_Some s t h) as [h' Hp]; [by eauto|].
  exists h'. split; [done|]. split_and!.
  - by eapply push_nextNodes_prefix.
  - intros k1 s1 Hs1. destruct (Hwf _ _ Hs1) as (Hge1 & o1 & Ho1 & Hv1 & Hn1).
    split; [done|]. rewrite (push_nextNodes_lookup _ _ _ _ s1 Hp), Ho1.
    destruct (decide (s1 = s)) as [->|Hne]; simpl; [|by eauto].
    eexists. split; [done|]. simpl. split; [done|].
    intros t1 [Ht1| ->%list_elem_of_singleton]%elem_of_app; [by eauto|].
    assert (k1 = k) as -> by (destruct (Hwf _ _ Hs) as (_ & ? & ? & ? & _); congruence).
    eauto.
  - intros k1 s1 o1 Hs1. rewrite (push_nextNodes_lookup _ _ _ _ s1 Hp).
    destruct (decide (s1 = s)) as [->|Hne]; [|by eauto].
    rewrite Ho. simpl. intros [= <-]. simpl. eauto.
Qed.

Lemma linkNextNodes_inv node next h :
  link_inv h →
  (∀ v, v ∈ next → R node v ∧ R v node) →
  match linkNextNodes m (map_get node m) next h with
  | Normal h' _ =>
      link_inv h' ∧ (∀ a b, edge h a b → edge h' a b) ∧
      ∀ v, v ∈ next → ∃ s t,
        map_get node m = Some s ∧ map_get v m = Some t ∧ edge h' s t ∧ edge h' t s
  | Throw h' =>
      link_inv h' ∧
      ¬ (is_Some (map_get node m) ∧ ∀ v, v ∈ next → is_Some (map_get v m))
  | OutOfFuel => False
  end.
Proof.
  revert h. induction next as [|v next IH]; intros h Hinv HR; simpl.
  - split_and!; [done..|]. by intros v ?%elem_of_nil.
  - destruct (map_get node m) as [s|] eqn:Hs; [|split; [done|by intros [[? ?] _]]].
    destruct (map_get v m) as [t|] eqn:Ht.
    2:{ split; [done|]. intros [_ Hall]. destruct (Hall v) as [? ?]; [by left|congruence]. }
    destruct (HR v) as [HR1 HR2]; [by left|].
    destruct (push_nextNodes_inv _ _ _ _ _ Hinv Hs Ht HR1) as (h1 & Hp1 & Hinv1).
    rewrite Hp1.
    destruct (push_nextNodes_inv _ _ _ _ _ Hinv1 Ht Hs HR2) as (h2 & Hp2 & Hinv2).
    rewrite Hp2.
    specialize (IH h2 Hinv2).
    destruct (linkNextNodes m (Some s) next h2) as [h' []|h'|].
    + destruct IH as (Hinv' & Hmono & Hdone); [by intros; apply HR; right|].
      split_and!; [done| |].
      * intros a b Hab. by eapply Hmono, push_nextNodes_edge, push_nextNodes_edge.
      * intros v' [->|Hv']%elem_of_cons; [|by eauto].
        exists s, t. split_and!; [done..| |].
        -- by eapply Hmono, push_nextNodes_edge, push_nextNodes_new_edge.
        -- by eapply Hmono, push_nextNodes_new_edge.
    + destruct IH as (Hinv' & Hnot); [by intros; apply HR; right|].
      split; [done|]. intros [_ Hall]. apply Hnot. split; [by eauto|].
      intros; apply Hall; by right.
    + apply IH. by intros; apply HR; right.
Qed.

Lemma linkShells_inv nodes h :
  link_inv h →
  (∀ node h' o v, node ∈ nodes → h0 `prefix_of` h' → h' !! node = Some o →
     v ∈ nextNodes o → R node v ∧ R v node) →
  match linkShells m nodes h with
  | Normal h' _ =>
      link_inv h' ∧ (∀ a b, edge h a b → edge h' a b) ∧
      ∀ u v, u ∈ nodes → edge h0 u v → ∃ s t,
        map_get u m = Some s ∧ map_get v m = Some t ∧ edge h' s t ∧ edge h' t s
  | Throw h' =>
      link_inv h' ∧
      ¬ (∀ u, u ∈ nodes → ∃ o, h0 !! u = Some o ∧ is_Some (map_get u m) ∧
           ∀ v, v ∈ nextNodes o → is_Some (map_get v m))
  | OutOfFuel => False
  end.
Proof.
  revert h. induction nodes as [|node nodes IH]; intros h Hinv HR; simpl.
  - split_and!; [done..|]. by intros u v ?%elem_of_nil.
  - destruct (h !! node) as [o|] eqn:Ho.
    2:{ split; [done|]. intros Hall. destruct (Hall node) as (o & Ho' & _); [by left|].
        destruct Hinv as (Hpre & _).
        rewrite (prefix_lookup_lt _ _ _ Hpre) in Ho by (by eapply lookup_lt_Some).
        congruence. }
    pose proof (linkNextNodes_inv node (nextNodes o) h Hinv) as Hin.
    destruct (linkNextNodes m (map_get node m) (nextNodes o) h) as [h1 []|h1|].
    + destruct Hin as (Hinv1 & Hmono1 & Hdone1).
      { intros v Hv. eapply HR; [by left|apply Hinv|done..]. }
      specialize (IH h1 Hinv1).
      destruct (linkShells m nodes h1) as [h' []|h'|].
      * destruct IH as (Hinv' & Hmono & Hdone); [by intros; eapply HR; eauto; right|].
        split_and!; [done|by eauto|].
        intros u v [->|Hu]%elem_of_cons Huv; [|by eauto].
        destruct Huv as (o' & Ho' & Hv).
        destruct Hinv as (Hpre & _).
        rewrite <- (prefix_lookup_lt _ _ _ Hpre) in Ho' by (by eapply lookup_lt_Some).
        simplify_eq. destruct (Hdone1 v Hv) as (s & t & ? & ? & ? & ?).
        exists s, t. split_and!; auto.
      * destruct IH as (Hinv' & Hnot); [by intros; eapply HR; eauto; right|].
        split; [done|]. intros Hall. apply Hnot. intros; apply Hall; by right.
      * apply IH. by intros; eapply HR; eauto; right.
    + destruct Hin as (Hinv1 & Hnot).
      { intros v Hv. eapply HR; [by left|apply Hinv|done..]. }
      split; [done|]. intros Hall. apply Hnot.
      destruct (Hall node) as (o' & Ho' & ? & Hn); [by left|].
      destruct Hinv as (Hpre & _).
      rewrite <- (prefix_lookup_lt _ _ _ Hpre) in Ho' by (by eapply lookup_lt_Some).
      simplify_eq. done.
    + apply Hin. intros v Hv. eapply HR; [by left|apply Hinv|done..].
Qed.
End LinkPhase.

(** ** Group propagation: [graphBfs] with the callback of the third loop *)

Lemma markGroup_same_graph h shellNode c s :
  same_graph h s → same_graph h (markGroup shellNode c s).1.
Proof.
  intros [Hlen Hnext]. unfold markGroup.
  destruct (s !! shellNode) as [so|]; [|done].
  destruct (s !! c) as [co|] eqn:Hc; [|done]. simpl.
  split; [by rewrite length_insert|]. intros l.
  destruct (decide (l = c)) as [->|Hne].
  - rewrite list_lookup_insert_eq by (by eapply lookup_lt_Some).
    rewrite <- Hnext, Hc. done.
  - by rewrite list_lookup_insert_ne.
Qed.

Lemma nextNodes_of_bound h s c next :
  same_graph h s → nextNodes_of s c = Some next →
  c ∈ seq 0 (length h) ∧
  (length next ≤ max_list (length ∘ nextNodes <$> h))%nat.
Proof.
  intros [Hlen Hnext]. unfold nextNodes_of. rewrite Hnext.
  destruct (h !! c) as [o|] eqn:Ho; simpl; [|done]. intros [= <-]. split.
  - apply elem_of_seq. apply lookup_lt_Some in Ho. lia.
  - apply max_list_elem_of_le. apply list_elem_of_fmap. exists o.
    split; [done|]. by eapply list_elem_of_lookup_2.
Qed.

Lemma markGroup_enough_fuel h shellNode root :
  graphBfs nextNodes_of (markGroup shellNode) (bfs_fuel h) root h ≠ OutOfFuel.
Proof.
  apply (graphBfs_enough_fuel _ _ (seq 0 (length h))
           (max_list (length ∘ nextNodes <$> h)) (same_graph h)).
  - intros c s. apply markGroup_same_graph.
  - intros s c next. apply nextNodes_of_bound.
  - done.
  - unfold bfs_fuel. rewrite length_seq. lia.
Qed.

Section MarkGroup.
Variable h : heap.
Variable root : loc.
Variable gv : option Z.
Hypothesis root_g : g <$> h !! root = Some gv.
Hypothesis reach_alloc : ∀ x, rtc (edge h) root x → is_Some (h !! x).

Local Abbreviation iter := (graphBfs_iter nextNodes_of (markGroup root)).
Local Abbreviation inv := (mark_inv h root gv).

Lemma mark_inv_init : inv (BfsState [root] ∅ h).
Proof.
  split_and!; simpl.
  - intros l. destruct (h !! l); simpl; [|done]. by rewrite decide_False.
  - intros x [?| ->%list_elem_of_singleton]; [set_solver|done].
  - intros x y ?. set_solver.
  - right. by left.
Qed.

Lemma mark_inv_iter σ :
  inv σ →
  match iter σ with
  | Continue σ' => inv σ'
  | Finished _ => queue σ = []
  | Raise _ => False
  end.
Proof.
  intros (Hst & Hreach & Hclo & Hroot). unfold graphBfs_iter.
  destruct σ as [[|c q] V s]; simpl in *; [done|].
  assert (rtc (edge h) root c) as Hc by (apply Hreach; right; by left).
  destruct (reach_alloc c Hc) as [co Hco].
  destruct (h !! root) as [ro|] eqn:Hro; [|done]. simpl in root_g.
  unfold markGroup. rewrite (Hst root), (Hst c), Hro, Hco. simpl.
  assert (g (if decide (root ∈ V) then marked gv ro else ro) = gv) as ->.
  { destruct (decide (root ∈ V)); simpl; congruence. }
  unfold nextNodes_of.
  rewrite list_lookup_insert_eq by (apply lookup_lt_is_Some; rewrite Hst, Hco; by eauto).
  simpl.
  assert (nextNodes (if decide (c ∈ V) then marked gv co else co) = nextNodes co) as ->.
  { by destruct (decide (c ∈ V)). }
  assert (val (if decide (c ∈ V) then marked gv co else co) = val co) as ->.
  { by destruct (decide (c ∈ V)). }
  split_and!; simpl.
  - intros l. destruct (decide (l = c)) as [->|Hne].
    + rewrite list_lookup_insert_eq by (apply lookup_lt_is_Some; rewrite Hst, Hco; by eauto).
      rewrite Hco. simpl. rewrite decide_True by set_solver. done.
    + rewrite list_lookup_insert_ne by done. rewrite Hst.
      destruct (h !! l); simpl; [|done].
      destruct (decide (l ∈ V)), (decide (l ∈ {[c]} ∪ V)); try done; set_solver.
  - intros x. rewrite push_unvisited_filter, elem_of_app, list_elem_of_filter.
    intros [[->%elem_of_singleton|?]%elem_of_union|[?|[_ Hx]]]; [done|auto|..].
    + apply Hreach. right. by right.
    + eapply rtc_r; [done|]. by exists co.
  - intros x y. rewrite push_unvisited_filter, elem_of_app, list_elem_of_filter.
    intros [->%elem_of_singleton|Hx]%elem_of_union Hxy.
    + destruct Hxy as (o & Ho & Hy). simplify_eq.
      destruct (decide (y ∈ {[c]} ∪ V)); [by left|]. right. right. done.
    + destruct (Hclo x y Hx Hxy) as [?|[->|?]%elem_of_cons].
      * left. set_solver.
      * left. set_solver.
      * right. by left.
  - rewrite push_unvisited_filter, elem_of_app.
    destruct Hroot as [?|[->|?]%elem_of_cons].
    + left. set_solver.
    + left. set_solver.
    + right. by left.
Qed.

Lemma mark_inv_keep σ σ' : inv σ → iter σ = Continue σ' → inv σ'.
Proof. intros Hσ%mark_inv_iter Hit. by rewrite Hit in Hσ. Qed.

Lemma mark_inv_closed σ x :
  inv σ → queue σ = [] → rtc (edge h) root x ↔ x ∈ visitedNodes σ.
Proof.
  intros (Hst & Hreach & Hclo & Hroot) Hq. rewrite Hq in *. split.
  - revert x. apply (rtc_ind_r (λ x, x ∈ visitedNodes σ)).
    + destruct Hroot as [?|?%elem_of_nil]; done.
    + intros y z Hy Hyz IH.
      destruct (Hclo y z IH Hyz) as [?|?%elem_of_nil]; done.
  - intros. apply Hreach. by left.
Qed.

(** The propagation completes; it marks the objects [root] reaches and
    leaves the others as they were. *)
Lemma graphBfs_markGroup :
  ∃ h' (V : gset loc),
    graphBfs nextNodes_of (markGroup root) (bfs_fuel h) root h = Normal h' () ∧
    (∀ x, x ∈ V ↔ rtc (edge h) root x) ∧
    ∀ l, h' !! l = (λ o, if decide (l ∈ V) then marked gv o else o) <$> h !! l.
Proof.
  pose proof (markGroup_enough_fuel h root root) as Hfuel.
  unfold graphBfs in *. rewrite loop_run in *.
  pose proof (run_invariant nextNodes_of (markGroup root) inv) as Hrun.
  specialize (Hrun mark_inv_keep).
  specialize (Hrun (2 ^ bfs_fuel h)%nat _ mark_inv_init).
  destruct (graphBfs_run nextNodes_of (markGroup root) (2 ^ bfs_fuel h)
              (BfsState [root] ∅ h)) as [σ'|h'|h']; [done| |].
  - destruct Hrun as (σ' & Hinv & Hq & <-).
    exists (store σ'), (visitedNodes σ'). split; [done|].
    pose proof Hinv as (Hst & _). split; [|done].
    intros x. symmetry. by apply mark_inv_closed.
  - destruct Hrun as (σ' & Hinv & Hit). apply mark_inv_iter in Hinv.
    by rewrite Hit in Hinv.
Qed.
End MarkGroup.

(** ** Third loop *)

Lemma prefix_of_lookup (h0 h : heap) :
  (∀ l o, h0 !! l = Some o → h !! l = Some o) → h0 `prefix_of` h.
Proof.
  revert h. induction h0 as [|o0 h0 IH]; intros h Hl; [apply prefix_nil|].
  destruct h as [|o h]; [by specialize (Hl 0%nat o0 eq_refl)|].
  pose proof (Hl 0%nat o0 eq_refl) as [= ->].
  apply prefix_cons, IH. intros l o' Ho'. apply (Hl (S l)). done.
Qed.

Lemma edge_same_nextNodes h h' a b :
  (∀ l, nextNodes <$> h' !! l = nextNodes <$> h !! l) → edge h a b → edge h' a b.
Proof.
  intros Hn (o & Ho & Hb). specialize (Hn a). rewrite Ho in Hn.
  destruct (h' !! a) as [o'|] eqn:Ho'; simplify_eq/=.
  exists o'. split; [done|]. congruence.
Qed.

Lemma rtc_edge_same_nextNodes h h' a b :
  (∀ l, nextNodes <$> h' !! l = nextNodes <$> h !! l) →
  rtc (edge h) a b → rtc (edge h') a b.
Proof.
  intros Hn. apply rtc_subrel. intros x y. by apply edge_same_nextNodes.
Qed.

(** From a shell node the shell edges lead to shell nodes only. *)
Lemma rtc_edge_shells R n0 m h k s t :
  shells_wf R n0 m h → map_get k m = Some s → rtc (edge h) s t →
  ∃ k', map_get k' m = Some t ∧ rtc R k k'.
Proof.
  intros Hwf Hs Hst. revert t Hst.
  apply (rtc_ind_r (λ t, ∃ k', map_get k' m = Some t ∧ rtc R k k'));
    [exists k; split; [done|apply rtc_refl]|].
  intros y z Hy Hyz IH.
  destruct IH as (ky & Hky & Hk). destruct Hyz as (o & Ho & Hz).
  destruct (Hwf _ _ Hky) as (_ & o' & Ho' & _ & Hnext). simplify_eq.
  destruct (Hnext z Hz) as (kz & Hkz & HR). exists kz. split; [done|].
  by eapply rtc_r.
Qed.

Lemma shells_wf_key R n0 m h k k' s :
  shells_wf R n0 m h → map_get k m = Some s → map_get k' m = Some s → k = k'.
Proof.
  intros Hwf Hk Hk'.
  destruct (Hwf _ _ Hk) as (_ & o & Ho & Hv & _).
  destruct (Hwf _ _ Hk') as (_ & o' & Ho' & Hv' & _). congruence.
Qed.

(** Marking a set of shell nodes keeps the store well formed. *)
Lemma marking_wf R h0 m h h' (V : gset loc) gv :
  h0 `prefix_of` h → shells_wf R (length h0) m h →
  (∀ x, x ∈ V → length h0 ≤ x)%nat →
  (∀ l, h' !! l = (λ o, if decide (l ∈ V) then marked gv o else o) <$> h !! l) →
  h0 `prefix_of` h' ∧ shells_wf R (length h0) m h' ∧
  ∀ l, nextNodes <$> h' !! l = nextNodes <$> h !! l.
Proof.
  intros Hpre Hwf HV Hh'. split_and!.
  - apply prefix_of_lookup. intros l o Ho. rewrite Hh'.
    rewrite (prefix_lookup_Some _ _ _ _ Ho Hpre). simpl.
    rewrite decide_False; [done|]. intros Hl%HV.
    apply lookup_lt_Some in Ho. lia.
  - intros k s Hs. destruct (Hwf _ _ Hs) as (Hge & o & Ho & Hv & Hn).
    split; [done|]. rewrite Hh', Ho. simpl. eexists. split; [done|].
    by destruct (decide (s ∈ V)).
  - intros l. rewrite Hh'. destruct (h !! l); simpl; [|done].
    by destruct (decide (l ∈ V)).
Qed.

(** One pass of the third loop over an unassigned shell node: the
    traversal completes and marks what the node reaches. *)
Lemma assign_step R n0 m h k s o cnt :
  shells_wf R n0 m h → map_get k m = Some s → h !! s = Some o →
  let h1 := <[s := Obj (val o) (nextNodes o) (Some cnt)]> h in
  ∃ h' (V : gset loc),
    graphBfs nextNodes_of (markGroup s) (bfs_fuel h1) s h1 = Normal h' () ∧
    (∀ x, x ∈ V ↔ rtc (edge h) s x) ∧
    ∀ l, h' !! l = (λ o, if decide (l ∈ V) then marked (Some cnt) o else o) <$> h !! l.
Proof.
  intros Hwf Hs Ho h1.
  assert (∀ l, h1 !! l =
    if decide (l = s) then Some (Obj (val o) (nextNodes o) (Some cnt)) else h !! l) as Hh1.
  { intros l. unfold h1. destruct (decide (l = s)) as [->|Hne].
    - rewrite list_lookup_insert_eq; [done|]. by eapply lookup_lt_Some.
    - by rewrite list_lookup_insert_ne. }
  assert (∀ l, nextNodes <$> h1 !! l = nextNodes <$> h !! l) as Hn1.
  { intros l. rewrite Hh1. destruct (decide (l = s)) as [->|]; [|done]. by rewrite Ho. }
  assert (∀ x, rtc (edge h1) s x ↔ rtc (edge h) s x) as Hreach.
  { intros x. split; apply rtc_edge_same_nextNodes; [|done].
    intros l. by rewrite Hn1. }
  destruct (graphBfs_markGroup h1 s (Some cnt)) as (h' & V & Hrun & HV & Hh').
  - rewrite Hh1, decide_True by done. done.
  - intros x Hx%Hreach.
    destruct (rtc_edge_shells _ _ _ _ _ _ _ Hwf Hs Hx) as (k' & Hk' & _).
    destruct (Hwf _ _ Hk') as (_ & o' & Ho' & _).
    rewrite Hh1. destruct (decide (x = s)); eauto.
  - exists h', V. split; [done|]. split.
    + intros x. by rewrite HV, Hreach.
    + intros l. rewrite Hh', Hh1. destruct (decide (l = s)) as [->|]; [|done].
      rewrite Ho. simpl. destruct (decide (s ∈ V)) as [|Hn]; [reflexivity|].
      destruct Hn. apply HV, rtc_refl.
Qed.

(** Whatever the input, the third loop completes and touches shell nodes
    only. *)
Lemma assignGroups_wf R h0 m keys cnt h :
  h0 `prefix_of` h → shells_wf R (length h0) m h →
  (∀ k, k ∈ keys → is_Some (map_get k m)) →
  ∃ h' cnt', assignGroups m keys cnt h = Normal h' cnt' ∧
    h0 `prefix_of` h' ∧ shells_wf R (length h0) m h'.
Proof.
  revert cnt h. induction keys as [|k keys IH]; intros cnt h Hpre Hwf Hkeys; simpl.
  - eauto.
  - destruct (Hkeys k) as [s Hs]; [by left|]. rewrite Hs.
    destruct (Hwf _ _ Hs) as (Hge & o & Ho & _). rewrite Ho.
    destruct (decide (g o = Some (-1))).
    + destruct (assign_step _ _ _ _ _ _ _ cnt Hwf Hs Ho) as (h' & V & -> & HV & Hh').
      destruct (marking_wf R h0 m h h' V (Some cnt)) as (Hpre' & Hwf' & _); [done..| |done|].
      { intros x Hx%HV.
        destruct (rtc_edge_shells _ _ _ _ _ _ _ Hwf Hs Hx) as (k' & Hk' & _).
        by destruct (Hwf _ _ Hk') as (? & _). }
      apply IH; [done..|]. intros; apply Hkeys; by right.
    + apply IH; [done..|]. intros; apply Hkeys; by right.
Qed.

Lemma closed_spec h nodes :
  closed h nodes ↔
  ∀ u, u ∈ nodes → ∃ o, h !! u = Some o ∧ ∀ v, v ∈ nextNodes o → v ∈ nodes.
Proof.
  unfold closed. rewrite Forall_forall. split; intros H u Hu.
  - specialize (H u Hu). destruct (h !! u) as [o|]; simpl in H; [|done].
    exists o. split; [done|]. by apply Forall_forall.
  - destruct (H u Hu) as (o & -> & Hn). simpl. by apply Forall_forall.
Qed.

Lemma before_app (done rest : list loc) k' k :
  k' ∈ done → k ∈ rest → before (done ++ rest) k' k.
Proof.
  intros (i & Hi)%list_elem_of_lookup_1 (j & Hj)%list_elem_of_lookup_1.
  exists i, (length done + j)%nat. apply lookup_lt_Some in Hi as Hlt.
  split_and!; [lia| |].
  - by rewrite lookup_app_l.
  - rewrite lookup_app_r by lia. rewrite <- Hj. f_equal. lia.
Qed.

Section ClosedInput.
Variable h0 : heap.
Variable nodes : list loc.
Variable m : jsmap.
Hypothesis Hclosed : closed h0 nodes.
Hypothesis Hkeys : ∀ k, k ∈ nodes ↔ is_Some (map_get k m).

Local Abbreviation conn := (connected h0 nodes).
Local Abbreviation wf := (shells_wf (sc (input_edge h0 nodes)) (length h0) m).

Lemma input_edge_closed u v : input_edge h0 nodes u v → u ∈ nodes ∧ v ∈ nodes.
Proof.
  intros [Hu (o & Ho & Hv)]. split; [done|].
  destruct (proj1 (closed_spec _ _) Hclosed u Hu) as (o' & Ho' & Hall).
  simplify_eq. auto.
Qed.

Lemma connected_closed u v : conn u v → u ∈ nodes → v ∈ nodes.
Proof.
  induction 1 as [|x y z Hxy _ IH]; [done|]. intros Hx. apply IH.
  destruct Hxy as [H|H]; apply input_edge_closed in H; tauto.
Qed.

(** Among shell nodes, reaching along shell edges is being connected. *)
Lemma connected_shell_reach h k k' s :
  mirrored h0 nodes m h → k ∈ nodes → map_get k m = Some s → conn k k' →
  ∃ s', map_get k' m = Some s' ∧ rtc (edge h) s s'.
Proof.
  intros Hmir Hk Hs Hconn. revert k' Hconn.
  apply (rtc_ind_r (λ k', ∃ s', map_get k' m = Some s' ∧ rtc (edge h) s s'));
    [exists s; split; [done|apply rtc_refl]|].
  intros y z Hky Hyz IH.
  destruct IH as (sy & Hsy & Hreach).
  destruct Hyz as [Hyz|Hzy].
  - destruct Hyz as [Hy Hyz]. destruct (Hmir _ _ Hy Hyz) as (s1 & t1 & ? & ? & ? & ?).
    simplify_eq. exists t1. split; [done|]. by eapply rtc_r.
  - destruct Hzy as [Hz Hzy]. destruct (Hmir _ _ Hz Hzy) as (s1 & t1 & ? & ? & ? & ?).
    simplify_eq. exists s1. split; [done|]. by eapply rtc_r.
Qed.

Lemma shell_reach_connected h k k' s s' :
  wf h → mirrored h0 nodes m h → k ∈ nodes →
  map_get k m = Some s → map_get k' m = Some s' →
  rtc (edge h) s s' ↔ conn k k'.
Proof.
  intros Hwf Hmir Hk Hs Hs'. split.
  - intros Hreach.
    destruct (rtc_edge_shells _ _ _ _ _ _ _ Hwf Hs Hreach) as (k'' & Hk'' & Hc).
    by rewrite (shells_wf_key _ _ _ _ _ _ _ Hwf Hs' Hk'').
  - intros Hc. destruct (connected_shell_reach h k k' s Hmir Hk Hs Hc) as (s'' & ? & ?).
    by simplify_eq.
Qed.

Lemma gid_marked h h' (V : gset loc) gv k s :
  wf h → map_get k m = Some s →
  (∀ l, h' !! l = (λ o, if decide (l ∈ V) then marked gv o else o) <$> h !! l) →
  gid m h' k = if decide (s ∈ V) then gv else gid m h k.
Proof.
  intros Hwf Hs Hh'. unfold gid. rewrite Hs. simpl. rewrite Hh'.
  destruct (Hwf _ _ Hs) as (_ & o & -> & _). simpl.
  by destruct (decide (s ∈ V)).
Qed.
End ClosedInput.

Section AssignClosed.
Variable h0 : heap.
Variable nodes : list loc.
Variable m : jsmap.
Hypothesis Hclosed : closed h0 nodes.
Hypothesis Hkeys : ∀ k, k ∈ nodes ↔ is_Some (map_get k m).

Local Abbreviation conn := (connected h0 nodes).
Local Abbreviation inv := (assign_inv h0 nodes m).

Lemma assign_inv_skip done cnt h node :
  inv done cnt h → gid m h node ≠ Some (-1) → inv (done ++ [node]) cnt h.
Proof.
  intros (Hpre & Hwf & Hmir & Hcnt & Htot & Hdone & Hcl & Hsame & Hseed & Hrg) Hnode.
  split_and!; try done.
  - intros k [?| ->%list_elem_of_singleton]%elem_of_app; auto.
  - intros z Hz. destruct (Hseed z Hz) as (k & ? & ?). exists k.
    split; [|done]. apply elem_of_app. by left.
Qed.

Lemma assign_inv_seed done rest cnt h node s h' (V : gset loc) :
  inv done cnt h → map_keys m = done ++ node :: rest →
  map_get node m = Some s → gid m h node = Some (-1) →
  (∀ x, x ∈ V ↔ rtc (edge h) s x) →
  (∀ l, h' !! l = (λ o, if decide (l ∈ V) then marked (Some cnt) o else o) <$> h !! l) →
  inv (done ++ [node]) (cnt + 1) h'.
Proof.
  intros (Hpre & Hwf & Hmir & Hcnt & Htot & Hdone & Hcl & Hsame & Hseed & Hrg).
  intros HK Hs Hnode HV Hh'.
  assert (node ∈ nodes) as Hin by (apply Hkeys; eauto).
  destruct (marking_wf _ h0 m h h' V (Some cnt) Hpre Hwf) as (Hpre' & Hwf' & Hn);
    [|done|].
  { intros x Hx%HV.
    destruct (rtc_edge_shells _ _ _ _ _ _ _ Hwf Hs Hx) as (k' & Hk' & _).
    by destruct (Hwf _ _ Hk') as (? & _). }
  assert (∀ k sk, k ∈ nodes → map_get k m = Some sk → sk ∈ V ↔ conn node k) as F1.
  { intros k sk Hk Hsk. rewrite HV.
    eapply shell_reach_connected; eauto. }
  assert (∀ k sk, map_get k m = Some sk →
    gid m h' k = if decide (sk ∈ V) then Some cnt else gid m h k) as F2.
  { intros k sk Hsk. eapply gid_marked; eauto. }
  assert (∀ k sk, k ∈ nodes → map_get k m = Some sk → sk ∈ V →
    gid m h k = Some (-1)) as F3.
  { intros k sk Hk Hsk HkV. destruct (Htot k Hk) as (z & Hz & Hrange).
    destruct (decide (z = -1)) as [->|Hne]; [done|].
    assert (gid m h node = Some z) as Hz'.
    { apply (Hcl k node z Hk Hz Hne). symmetry. by eapply F1. }
    congruence. }
  assert (s ∈ V) as HsV by (by apply HV).
  split_and!; try done.
  - intros u v Hu Huv. destruct (Hmir u v Hu Huv) as (su & sv & ? & ? & ? & ?).
    exists su, sv. split_and!; try done; by eapply edge_same_nextNodes.
  - lia.
  - intros k Hk. destruct (proj1 (Hkeys k) Hk) as [sk Hsk].
    rewrite (F2 k sk Hsk). destruct (decide (sk ∈ V)).
    + exists cnt. split; [done|lia].
    + destruct (Htot k Hk) as (z & ? & ?). exists z. split; [done|lia].
  - intros k Hk.
    assert (k ∈ nodes) as Hkn.
    { apply Hkeys, map_get_keys. rewrite HK.
      apply elem_of_app in Hk as [?| ->%list_elem_of_singleton];
        apply elem_of_app; [by left|right; by left]. }
    destruct (proj1 (Hkeys k) Hkn) as [sk Hsk].
    rewrite (F2 k sk Hsk). destruct (decide (sk ∈ V)) as [|HkV].
    + intros [= ?]. lia.
    + apply elem_of_app in Hk as [?| ->%list_elem_of_singleton]; [by auto|].
      by simplify_eq.
  - intros k k' z Hk Hz Hne Hc.
    assert (k' ∈ nodes) as Hk' by (by eapply connected_closed).
    destruct (proj1 (Hkeys k) Hk) as [sk Hsk].
    destruct (proj1 (Hkeys k') Hk') as [sk' Hsk'].
    rewrite (F2 k sk Hsk) in Hz. rewrite (F2 k' sk' Hsk').
    destruct (decide (sk ∈ V)) as [HkV|HkV].
    + rewrite decide_True; [done|]. apply (F1 k' sk' Hk' Hsk').
      etrans; [|done]. by apply (F1 k sk).
    + rewrite decide_False; [by apply (Hcl k k' z)|].
      intros Hk'V. apply HkV, (F1 k sk Hk Hsk).
      etrans; [by apply (F1 k' sk')|]. by symmetry.
  - intros k k' z Hk Hk' Hz Hz' Hne.
    destruct (proj1 (Hkeys k) Hk) as [sk Hsk].
    destruct (proj1 (Hkeys k') Hk') as [sk' Hsk'].
    rewrite (F2 k sk Hsk) in Hz. rewrite (F2 k' sk' Hsk') in Hz'.
    destruct (decide (sk ∈ V)) as [HkV|HkV], (decide (sk' ∈ V)) as [Hk'V|Hk'V].
    + etrans; [symmetry; by apply (F1 k sk)|by apply (F1 k' sk')].
    + simplify_eq. destruct (Htot k' Hk') as (z0 & ? & ?). simplify_eq. lia.
    + simplify_eq. destruct (Htot k Hk) as (z0 & ? & ?). simplify_eq. lia.
    + by apply (Hsame k k' z).
  - intros z Hz. destruct (decide (z = cnt)) as [->|Hne].
    + exists node. split; [apply elem_of_app; right; by left|].
      rewrite (F2 node s Hs). by rewrite decide_True.
    + destruct (Hseed z) as (k & Hk & Hgk); [lia|]. exists k.
      split; [apply elem_of_app; by left|].
      assert (k ∈ nodes) as Hkn.
      { apply Hkeys, map_get_keys. rewrite HK. apply elem_of_app. by left. }
      destruct (proj1 (Hkeys k) Hkn) as [sk Hsk].
      rewrite (F2 k sk Hsk). rewrite decide_False; [done|].
      intros HkV. rewrite (F3 k sk Hkn Hsk HkV) in Hgk. simplify_eq. lia.
  - intros k z z' Hk Hz Hz'.
    destruct (proj1 (Hkeys k) Hk) as [sk Hsk].
    rewrite (F2 k sk Hsk) in Hz.
    assert (∀ k', k' ∈ nodes → gid m h k' = Some z' → gid m h' k' = Some z') as Hkeep.
    { intros k' Hk' Hgk'. destruct (proj1 (Hkeys k') Hk') as [sk' Hsk'].
      rewrite (F2 k' sk' Hsk'). rewrite decide_False; [done|].
      intros Hk'V. rewrite (F3 k' sk' Hk' Hsk' Hk'V) in Hgk'. simplify_eq. lia. }
    destruct (decide (sk ∈ V)) as [HkV|HkV].
    + simplify_eq. destruct (Hseed z') as (k' & Hk' & Hgk'); [lia|].
      assert (k' ∈ nodes) as Hk'n.
      { apply Hkeys, map_get_keys. rewrite HK. apply elem_of_app. by left. }
      exists k'. split; [|by apply Hkeep].
      rewrite HK. apply before_app; [done|].
      assert (k ∈ map_keys m) as HkK by (by apply map_get_keys, Hkeys).
      rewrite HK in HkK. apply elem_of_app in HkK as [Hkd|?]; [|done].
      destruct (Hdone k Hkd). by eapply F3.
    + destruct (Hrg k z z' Hk Hz Hz') as (k' & Hbefore & Hgk').
      exists k'. split; [done|]. apply Hkeep; [|done].
      destruct Hbefore as (i & j & _ & Hi & _).
      apply Hkeys, map_get_keys. by eapply list_elem_of_lookup_2.
Qed.

(** On a closed input the third loop completes with its invariant. *)
Lemma assignGroups_inv rest done cnt h :
  map_keys m = done ++ rest → inv done cnt h →
  ∃ h' cnt', assignGroups m rest cnt h = Normal h' cnt' ∧ inv (map_keys m) cnt' h'.
Proof.
  revert done cnt h. induction rest as [|node rest IH]; intros done cnt h HK Hinv; simpl.
  - rewrite app_nil_r in HK. rewrite HK. eauto.
  - assert (is_Some (map_get node m)) as [s Hs].
    { apply map_get_keys. rewrite HK. apply elem_of_app. right. by left. }
    rewrite Hs. pose proof Hinv as (_ & Hwf & _).
    destruct (Hwf _ _ Hs) as (_ & o & Ho & _). rewrite Ho.
    assert (gid m h node = g o) as Hgid.
    { unfold gid. rewrite Hs. simpl. by rewrite Ho. }
    assert (map_keys m = (done ++ [node]) ++ rest) as HK'.
    { by rewrite <- app_assoc. }
    destruct (decide (g o = Some (-1))) as [Hg|Hg].
    + destruct (assign_step _ _ _ _ _ _ _ cnt Hwf Hs Ho) as (h' & V & -> & HV & Hh').
      apply (IH _ _ _ HK').
      eapply assign_inv_seed; eauto. congruence.
    + apply (IH _ _ _ HK'). apply assign_inv_skip; [done|congruence].
Qed.
End AssignClosed.

(** ** Fourth loop *)

Lemma elem_of_concat (ls : list (list loc)) x :
  x ∈ concat ls ↔ ∃ l, l ∈ ls ∧ x ∈ l.
Proof.
  induction ls as [|l ls IH]; simpl.
  - split; [by intros ?%elem_of_nil|by intros (? & ?%elem_of_nil & _)].
  - rewrite elem_of_app, IH. split.
    + intros [?|(l' & ? & ?)]; [exists l; split; [by left|done]|].
      exists l'. split; [by right|done].
    + intros (l' & [->|?]%elem_of_cons & ?); [by left|right; by eauto].
Qed.

Lemma concat_insert_snoc (group : list (list loc)) i row x :
  group !! i = Some row → concat (<[i := row ++ [x]]> group) ≡ₚ x :: concat group.
Proof.
  revert i. induction group as [|r group IH]; intros [|i] Hi; simplify_eq/=.
  - rewrite <- app_assoc. simpl. by rewrite <- Permutation_middle.
  - rewrite (IH i Hi). by rewrite <- Permutation_middle.
Qed.

Lemma fillGroups_spec m keys h (group : list (list loc)) :
  (∀ k, k ∈ keys → ∃ z, gid m h k = Some z ∧ 0 ≤ z < Z.of_nat (length group)) →
  ∃ group', fillGroups m keys h group = Normal h group' ∧
    length group' = length group ∧
    (∀ i row, group !! i = Some row →
       group' !! i = Some (row ++ filter (λ k, gid m h k = Some (Z.of_nat i)) keys)) ∧
    concat group' ≡ₚ concat group ++ keys.
Proof.
  revert group. induction keys as [|node keys IH]; intros group Hk; simpl.
  - exists group. split_and!; [done..| |by rewrite app_nil_r].
    intros i row ->. by rewrite app_nil_r.
  - destruct (Hk node) as (z & Hgid & Hrange); [by left|].
    pose proof Hgid as Hz. unfold gid in Hz.
    destruct (map_get node m ≫= λ shellNode, h !! shellNode) as [o|]; [|done].
    simpl in Hz. rewrite Hz. rewrite decide_True by lia.
    destruct (lookup_lt_is_Some_2 group (Z.to_nat z)) as [row Hrow]; [lia|].
    rewrite Hrow.
    destruct (IH (<[Z.to_nat z := row ++ [node]]> group)) as (group' & -> & Hlen & Hlook & Hperm).
    { intros k Hin. rewrite length_insert. apply Hk. by right. }
    exists group'. split; [done|]. rewrite length_insert in Hlen.
    split_and!; [done| |].
    + intros i rowi Hi. rewrite filter_cons.
      destruct (decide (i = Z.to_nat z)) as [->|Hne].
      * assert (rowi = row) as -> by congruence.
        rewrite (Hlook (Z.to_nat z) (row ++ [node])).
        2:{ apply list_lookup_insert_eq. by eapply lookup_lt_Some. }
        rewrite decide_True by (rewrite Hgid; f_equal; lia).
        by rewrite <- app_assoc.
      * rewrite (Hlook i rowi) by (by rewrite list_lookup_insert_ne).
        rewrite decide_False; [done|]. rewrite Hgid. intros [= ->]. lia.
    + rewrite Hperm, (concat_insert_snoc _ _ _ _ Hrow).
      by rewrite <- Permutation_middle.
Qed.

Lemma fillGroups_newMatrix m keys h cnt :
  0 ≤ cnt →
  (∀ k, k ∈ keys → ∃ z, gid m h k = Some z ∧ 0 ≤ z < cnt) →
  fillGroups m keys h (newMatrix cnt) = Normal h (groups_of (gid m h) cnt keys) ∧
  concat (groups_of (gid m h) cnt keys) ≡ₚ keys.
Proof.
  intros Hcnt Hk.
  destruct (fillGroups_spec m keys h (newMatrix cnt)) as (group' & Hrun & Hlen & Hlook & Hperm).
  { unfold newMatrix. rewrite length_replicate. intros k Hin.
    destruct (Hk k Hin) as (z & ? & ?). exists z. split; [done|lia]. }
  assert (group' = groups_of (gid m h) cnt keys) as ->.
  { unfold newMatrix in *. rewrite length_replicate in Hlen.
    apply list_eq. intros i. unfold groups_of. rewrite list_lookup_fmap.
    destruct (decide (i < Z.to_nat cnt)%nat) as [Hlt|Hge].
    - rewrite (Hlook i []) by (by apply lookup_replicate_2).
      by rewrite lookup_seq_lt.
    - rewrite lookup_ge_None_2 by lia.
      rewrite lookup_seq_ge by lia. done. }
  split; [done|]. rewrite Hperm. unfold newMatrix.
  assert (concat (replicate (Z.to_nat cnt) ([] : list loc)) = []) as ->; [|done].
  induction (Z.to_nat cnt); simpl; auto.
Qed.

(** ** The numbering is determined by the input *)

Lemma filter_ext_elem (P1 P2 : loc → Prop)
    `{!∀ x, Decision (P1 x), !∀ x, Decision (P2 x)} (l : list loc) :
  (∀ x, x ∈ l → P1 x ↔ P2 x) → filter P1 l = filter P2 l.
Proof.
  induction l as [|a l IH]; intros Hiff; [done|].
  rewrite !filter_cons. rewrite IH by (intros; apply Hiff; by right).
  destruct (decide (P1 a)) as [H1|H1], (decide (P2 a)) as [H2|H2]; try done.
  - destruct H2. by apply (Hiff a); [left|].
  - destruct H1. by apply (Hiff a); [left|].
Qed.

Lemma filter_eq_once (l : list loc) x :
  NoDup l → x ∈ l → length (filter (λ y, y = x) l) = 1%nat.
Proof.
  induction 1 as [|a l Ha Hnd IH]; [by intros ?%elem_of_nil|].
  rewrite filter_cons. intros [->|Hx]%elem_of_cons.
  - rewrite decide_True by done. simpl. f_equal.
    clear IH Hnd. induction l as [|b l IH]; [done|].
    apply not_elem_of_cons in Ha as [Hne Ha].
    rewrite filter_cons, decide_False by done. auto.
  - rewrite decide_False by (intros ->; done). auto.
Qed.

(** Of two numberings that agree on the keys before position [p], the
    first does not give the key at [p] a smaller number than the second. *)
Lemma numbering_not_lt h nodes f1 cnt1 f2 cnt2 p k z1 z2 :
  numbering h nodes f1 cnt1 → numbering h nodes f2 cnt2 →
  (∀ q k', (q < p)%nat → input_order nodes !! q = Some k' → f1 k' = f2 k') →
  input_order nodes !! p = Some k → f1 k = Some z1 → f2 k = Some z2 →
  ¬ z1 < z2.
Proof.
  intros (_ & Hr1 & Hc1 & _ & _) (_ & Hr2 & Hc2 & _ & Hrg2) IH Hp Hz1 Hz2 Hlt.
  assert (k ∈ nodes) as Hk.
  { apply input_order_elem_of. by eapply list_elem_of_lookup_2. }
  destruct (Hr1 k Hk) as (z & ? & ?). simplify_eq.
  destruct (Hrg2 k z2 z1 Hk Hz2) as (k' & (i & j & Hij & Hi & Hj) & Hk'); [lia|].
  pose proof (NoDup_lookup _ _ _ _ (input_order_NoDup nodes) Hj Hp) as ->.
  assert (k' ∈ nodes) as Hk'n.
  { apply input_order_elem_of. by eapply list_elem_of_lookup_2. }
  assert (f1 k' = f1 k) as Heq1 by (rewrite (IH i k' Hij Hi); congruence).
  apply (Hc1 k' k Hk'n Hk), (Hc2 k' k Hk'n Hk) in Heq1.
  rewrite Hk', Hz2 in Heq1. simplify_eq. lia.
Qed.

Lemma numbering_unique h nodes f1 cnt1 f2 cnt2 :
  numbering h nodes f1 cnt1 → numbering h nodes f2 cnt2 →
  cnt1 = cnt2 ∧ ∀ k, k ∈ nodes → f1 k = f2 k.
Proof.
  intros N1 N2.
  assert (∀ p k, input_order nodes !! p = Some k → f1 k = f2 k) as Hpos.
  { intros p. induction p as [p IH] using lt_wf_ind. intros k Hp.
    assert (k ∈ nodes) as Hk.
    { apply input_order_elem_of. by eapply list_elem_of_lookup_2. }
    destruct N1 as (? & Hr1 & ?), N2 as (? & Hr2 & ?).
    destruct (Hr1 k Hk) as (z1 & Hz1 & _), (Hr2 k Hk) as (z2 & Hz2 & _).
    assert (¬ z1 < z2).
    { eapply (numbering_not_lt h nodes f1 cnt1 f2 cnt2 p k); try done.
      intros q k' Hq. by apply IH. }
    assert (¬ z2 < z1).
    { eapply (numbering_not_lt h nodes f2 cnt2 f1 cnt1 p k); try done.
      intros q k' Hq Hk'. symmetry. by eapply IH. }
    rewrite Hz1, Hz2. f_equal. lia. }
  assert (∀ k, k ∈ nodes → f1 k = f2 k) as Heq.
  { intros k (p & Hp)%input_order_elem_of%list_elem_of_lookup_1. by eapply Hpos. }
  split; [|done].
  destruct N1 as (Hc1 & Hr1 & _ & Hs1 & _), N2 as (Hc2 & Hr2 & _ & Hs2 & _).
  destruct (Z.lt_trichotomy cnt1 cnt2) as [Hlt|[?|Hlt]]; [|done|].
  - destruct (Hs2 cnt1) as (k & Hk & Hz); [lia|].
    destruct (Hr1 k Hk) as (z & Hz1 & ?). rewrite (Heq k Hk) in Hz1.
    simplify_eq. lia.
  - destruct (Hs1 cnt2) as (k & Hk & Hz); [lia|].
    destruct (Hr2 k Hk) as (z & Hz2 & ?). rewrite <- (Heq k Hk) in Hz2.
    simplify_eq. lia.
Qed.

Lemma groups_of_ext f1 f2 cnt keys :
  (∀ k, k ∈ keys → f1 k = f2 k) → groups_of f1 cnt keys = groups_of f2 cnt keys.
Proof.
  intros Heq. unfold groups_of. apply list_fmap_ext. intros _ i _.
  apply filter_ext_elem. intros k Hk. by rewrite (Heq k Hk).
Qed.

(** Objects added to the store leave the connectivity of a closed input
    as it was. *)
Lemma connected_prefix h h' nodes u v :
  closed h nodes → h `prefix_of` h' →
  connected h' nodes u v ↔ connected h nodes u v.
Proof.
  intros Hclosed Hpre. pose proof (proj1 (closed_spec _ _) Hclosed) as Hcl.
  assert (∀ x y, input_edge h' nodes x y ↔ input_edge h nodes x y) as Hedge.
  { intros x y. unfold input_edge, edge. split; intros [Hx (o & Ho & Hy)];
      (split; [done|]); destruct (Hcl x Hx) as (o' & Ho' & _).
    - rewrite (prefix_lookup_Some _ _ _ _ Ho' Hpre) in Ho. simplify_eq. eauto.
    - simplify_eq. exists o. split; [|done]. by eapply prefix_lookup_Some. }
  unfold connected, rtsc. split; apply rtc_subrel; intros x y [?|?];
    (left + right); by apply Hedge.
Qed.

Lemma closed_prefix h h' nodes : closed h nodes → h `prefix_of` h' → closed h' nodes.
Proof.
  rewrite !closed_spec. intros Hcl Hpre u Hu. destruct (Hcl u Hu) as (o & Ho & ?).
  exists o. split; [|done]. by eapply prefix_lookup_Some.
Qed.

Lemma numbering_prefix h h' nodes f cnt :
  closed h nodes → h `prefix_of` h' → numbering h' nodes f cnt → numbering h nodes f cnt.
Proof.
  intros Hclosed Hpre (? & ? & Hc & ? & ?). split_and!; try done.
  intros k k' Hk Hk'. rewrite (Hc k k' Hk Hk'). by apply connected_prefix.
Qed.

Lemma filter_key_length (m : jsmap) u :
  length (filter (λ kv, kv.1 = u) m) = length (filter (λ x, x = u) (map_keys m)).
Proof.
  unfold map_keys. induction m as [|[k v] m IH]; [done|].
  rewrite fmap_cons, !filter_cons. simpl.
  destruct (decide (k = u)); simpl; by rewrite IH.
Qed.

Lemma filter_eq_elem_of (l : list loc) u :
  (0 < length (filter (λ x, x = u) l))%nat → u ∈ l.
Proof.
  intros Hlen. destruct (filter (λ x, x = u) l) as [|x l'] eqn:Hf; [simpl in Hlen; lia|].
  assert (x ∈ filter (λ x, x = u) l) as [-> ?]%list_elem_of_filter; [|done].
  rewrite Hf. by left.
Qed.

(** ** The whole function *)

Lemma makeShells_link_inv R nodes h0 m h1 :
  makeShells nodes [] h0 = (m, h1) → link_inv R h0 m h1.
Proof.
  intros Hmk. split_and!.
  - apply makeShells_spec in Hmk as (-> & _). by eexists.
  - intros k s Hs. destruct (makeShells_get _ _ _ _ _ _ Hmk Hs) as (_ & [? _] & Ho).
    split; [done|]. exists (shell k). split_and!; [done..|].
    by intros t ?%elem_of_nil.
  - intros k s o Hs Ho. destruct (makeShells_get _ _ _ _ _ _ Hmk Hs) as (_ & _ & Ho').
    by simplify_eq.
Qed.

Lemma makeShells_keys_iff nodes h0 m h1 k :
  makeShells nodes [] h0 = (m, h1) → k ∈ nodes ↔ is_Some (map_get k m).
Proof.
  intros Hmk. by rewrite map_get_keys, (makeShells_keys _ _ _ _ Hmk), input_order_elem_of.
Qed.

Lemma linkShells_closed nodes h0 m h1 :
  closed h0 nodes → makeShells nodes [] h0 = (m, h1) →
  ∃ h2, linkShells m nodes h1 = Normal h2 () ∧
    link_inv (sc (input_edge h0 nodes)) h0 m h2 ∧ mirrored h0 nodes m h2.
Proof.
  intros Hclosed Hmk. pose proof (proj1 (closed_spec _ _) Hclosed) as Hcl.
  pose proof (linkShells_inv (sc (input_edge h0 nodes)) h0 m nodes h1
                (makeShells_link_inv _ _ _ _ _ Hmk)) as Hlink.
  destruct (linkShells m nodes h1) as [h2 []|h2|].
  - destruct Hlink as (Hinv & _ & Hmir); [|by eauto].
    intros node h' o v Hnode Hpre Ho Hv.
    destruct (Hcl node Hnode) as (o' & Ho' & _).
    rewrite (prefix_lookup_Some _ _ _ _ Ho' Hpre) in Ho. simplify_eq.
    assert (input_edge h0 nodes node v) by (split; [done|by exists o]).
    split; [by left|by right].
  - destruct Hlink as (_ & Hnot).
    + intros node h' o v Hnode Hpre Ho Hv.
      destruct (Hcl node Hnode) as (o' & Ho' & _).
      rewrite (prefix_lookup_Some _ _ _ _ Ho' Hpre) in Ho. simplify_eq.
      assert (input_edge h0 nodes node v) by (split; [done|by exists o]).
      split; [by left|by right].
    + destruct Hnot. intros u Hu. destruct (Hcl u Hu) as (o & Ho & Hall).
      exists o. split_and!; [done| |].
      * by apply (makeShells_keys_iff _ _ _ _ _ Hmk).
      * intros v Hv. by apply (makeShells_keys_iff _ _ _ _ _ Hmk), Hall.
  - destruct Hlink.
    intros node h' o v Hnode Hpre Ho Hv.
    destruct (Hcl node Hnode) as (o' & Ho' & _).
    rewrite (prefix_lookup_Some _ _ _ _ Ho' Hpre) in Ho. simplify_eq.
    assert (input_edge h0 nodes node v) by (split; [done|by exists o]).
    split; [by left|by right].
Qed.

Lemma assign_inv_init h0 nodes m h :
  (∀ k, k ∈ nodes ↔ is_Some (map_get k m)) →
  link_inv (sc (input_edge h0 nodes)) h0 m h → mirrored h0 nodes m h →
  assign_inv h0 nodes m [] 0 h.
Proof.
  intros Hkeys (Hpre & Hwf & Hun) Hmir.
  assert (∀ k, k ∈ nodes → gid m h k = Some (-1)) as Hgid.
  { intros k [s Hs]%Hkeys. unfold gid. rewrite Hs. simpl.
    destruct (Hwf _ _ Hs) as (_ & o & Ho & _). rewrite Ho. simpl. by eapply Hun. }
  split_and!; try done.
  - intros k Hk. exists (-1). split; [by apply Hgid|by left].
  - by intros k ?%elem_of_nil.
  - intros k k' z Hk Hz Hne. rewrite (Hgid k Hk) in Hz. by simplify_eq.
  - intros k k' z Hk _ Hz _ Hne. rewrite (Hgid k Hk) in Hz. by simplify_eq.
  - intros z ?. lia.
  - intros k z z' Hk Hz ?. rewrite (Hgid k Hk) in Hz. simplify_eq. lia.
Qed.

(** On a closed input the function returns the components, bucketed by the
    groups written on the shell nodes, and leaves the objects it was given
    as they were. *)
Lemma getConnectedComponent_closed h0 nodes :
  closed h0 nodes →
  ∃ h' cnt,
    let f := gid (makeShells nodes [] h0).1 h' in
    getConnectedComponent nodes h0 = Normal h' (groups_of f cnt (input_order nodes)) ∧
    h0 `prefix_of` h' ∧
    numbering h0 nodes f cnt ∧
    concat (groups_of f cnt (input_order nodes)) ≡ₚ input_order nodes.
Proof.
  intros Hclosed. unfold getConnectedComponent.
  destruct (makeShells nodes [] h0) as [m h1] eqn:Hmk.
  pose proof (λ k, makeShells_keys_iff _ _ _ _ k Hmk) as Hkeys.
  pose proof (makeShells_keys _ _ _ _ Hmk) as HK.
  destruct (linkShells_closed _ _ _ _ Hclosed Hmk) as (h2 & -> & Hinv2 & Hmir2).
  destruct (assignGroups_inv h0 nodes m Hclosed Hkeys (map_keys m) [] 0 h2)
    as (h3 & cnt & -> & Hinv3); [done|by apply assign_inv_init|].
  destruct Hinv3 as (Hpre & Hwf & Hmir & Hcnt & Htot & Hdone & Hcl & Hsame & Hseed & Hrg).
  assert (∀ k, k ∈ nodes → ∃ z, gid m h3 k = Some z ∧ 0 ≤ z < cnt) as Hrange.
  { intros k Hk. destruct (Htot k Hk) as (z & Hz & [->|?]); [|by eauto].
    destruct (Hdone k); [|done]. by apply map_get_keys, Hkeys. }
  destruct (fillGroups_newMatrix m (map_keys m) h3 cnt Hcnt) as [-> Hperm].
  { intros k Hk. apply Hrange, Hkeys, map_get_keys, Hk. }
  rewrite HK in *. exists h3, cnt. simpl. split_and!; try done.
  unfold numbering. split_and!; try done.
  - intros k k' Hk Hk'. destruct (Hrange k Hk) as (z & Hz & ?).
    split.
    + intros Heq. apply (Hsame k k' z); try done; [congruence|lia].
    + intros Hc. rewrite Hz. symmetry. apply (Hcl k k' z); try done. lia.
  - intros z Hz. destruct (Hseed z Hz) as (k & Hk & ?). exists k.
    split; [|done]. by apply input_order_elem_of.
Qed.

Lemma fillGroups_store m keys h group :
  match fillGroups m keys h group with
  | Normal h' _ | Throw h' => h' = h
  | OutOfFuel => False
  end.
Proof.
  revert group. induction keys as [|k keys IH]; intros group; simpl; [done|].
  destruct (map_get k m ≫= λ shellNode, h !! shellNode) as [o|]; [|done].
  destruct (g o) as [i|]; [|done]. destruct (decide (0 ≤ i)); [|done].
  destruct (group !! Z.to_nat i); [|done]. apply IH.
Qed.

(** Whatever the input, the call ends, and the objects that existed before
    it are as they were: the store has only grown. *)
Lemma getConnectedComponent_frame h0 nodes :
  match getConnectedComponent nodes h0 with
  | Normal h' _ | Throw h' => h0 `prefix_of` h'
  | OutOfFuel => False
  end.
Proof.
  unfold getConnectedComponent.
  destruct (makeShells nodes [] h0) as [m h1] eqn:Hmk.
  pose proof (linkShells_inv (λ _ _, True) h0 m nodes h1
                (makeShells_link_inv _ _ _ _ _ Hmk)) as Hlink.
  destruct (linkShells m nodes h1) as [h2 []|h2|].
  - destruct Hlink as ((Hpre & Hwf & _) & _); [done|].
    destruct (assignGroups_wf _ h0 m (map_keys m) 0 h2 Hpre Hwf)
      as (h3 & cnt & -> & Hpre3 & _).
    { intros k Hk. by apply map_get_keys. }
    pose proof (fillGroups_store m (map_keys m) h3 (newMatrix cnt)) as Hst.
    destruct (fillGroups m (map_keys m) h3 (newMatrix cnt)); by simplify_eq.
  - destruct Hlink as ((Hpre & _) & _); done.
  - destruct Hlink. done.
Qed.

(** ** The examples of the specification *)

Example empty_input : getConnectedComponent [] [] = Normal [] [].
Proof. reflexivity. Qed.

Example single_node :
  ∃ h', getConnectedComponent [0%nat] [node_obj []] = Normal h' [[0%nat]].
Proof. eexists. vm_compute. reflexivity. Qed.

Example two_pairs_groups :
  ∃ h', getConnectedComponent [0; 1; 2; 3]%nat two_pairs
          = Normal h' [[0; 1]; [2; 3]]%nat.
Proof. eexists. vm_compute. reflexivity. Qed.

Example cycle_one_group :
  ∃ h', getConnectedComponent [0; 1; 2]%nat [node_obj [1]; node_obj [2]; node_obj [0]]%nat
          = Normal h' [[0; 1; 2]%nat].
Proof. eexists. vm_compute. reflexivity. Qed.

(** A successor outside the collection: the second loop throws, and the
    two objects of the input are as they were. *)
Example open_input_throws :
  ∃ shells, getConnectedComponent [0%nat] [node_obj [1%nat]; node_obj []]
              = Throw ([node_obj [1%nat]; node_obj []] ++ shells).
Proof. eexists. vm_compute. reflexivity. Qed.

(** ** The order in which the third loop meets the shell nodes *)



(** ** Further facts about the returned groups *)

Lemma length_le_concat (gs : list (list loc)) :
  (∀ gr, gr ∈ gs → gr ≠ []) → (length gs ≤ length (concat gs))%nat.
Proof.
  induction gs as [|gr gs IH]; intros Hne; simpl; [done|].
  rewrite length_app.
  assert (gr ≠ []) as Hgr by (apply Hne; by left).
  assert (length gs ≤ length (concat gs))%nat by (apply IH; intros; apply Hne; by right).
  destruct gr; [done|]. simpl. lia.
Qed.

Lemma filter_eq_singleton (l : list loc) x :
  NoDup l → x ∈ l → filter (λ y, y = x) l = [x].
Proof.
  induction 1 as [|a l Ha Hnd IH]; [by intros ?%elem_of_nil|].
  rewrite filter_cons. intros [->|Hx]%elem_of_cons.
  - rewrite decide_True by done. f_equal.
    clear IH Hnd. induction l as [|b l IH]; [done|].
    apply not_elem_of_cons in Ha as [Hne Ha].
    rewrite filter_cons, decide_False by done. auto.
  - rewrite decide_False by (intros ->; done). auto.
Qed.

Lemma groups_of_elem_of f cnt keys gr :
  gr ∈ groups_of f cnt keys ↔
  ∃ i : nat, (i < Z.to_nat cnt)%nat ∧ gr = filter (λ k, f k = Some (Z.of_nat i)) keys.
Proof.
  unfold groups_of. rewrite list_elem_of_fmap. split.
  - intros (i & -> & Hi%elem_of_seq). exists i. split; [lia|done].
  - intros (i & Hi & ->). exists i. split; [done|]. apply elem_of_seq. lia.
Qed.

(** The group of a numbered node. *)
Lemma groups_of_number f cnt keys u z :
  f u = Some z → 0 ≤ z < cnt →
  filter (λ k, f k = f u) keys ∈ groups_of f cnt keys.
Proof.
  intros Hz Hrange. apply groups_of_elem_of. exists (Z.to_nat z).
  split; [lia|]. apply list_filter_iff. intros k. rewrite Hz.
  by rewrite Z2Nat.id by lia.
Qed.

(** The same elements give the same connectivity. *)
Lemma connected_same_elements h nodes nodes' u v :
  (∀ x, x ∈ nodes ↔ x ∈ nodes') →
  connected h nodes u v ↔ connected h nodes' u v.
Proof.
  intros Hel. unfold connected, rtsc.
  split; apply rtc_subrel; intros x y [[? ?]|[? ?]];
    ((left; split; [by apply Hel|done]) || (right; split; [by apply Hel|done])).
Qed.

Lemma closed_same_elements h nodes nodes' :
  (∀ x, x ∈ nodes ↔ x ∈ nodes') → closed h nodes → closed h nodes'.
Proof.
  rewrite !closed_spec. intros Hel Hcl u Hu%Hel.
  destruct (Hcl u Hu) as (o & ? & Hall). exists o. split; [done|].
  intros v Hv. by apply Hel, Hall.
Qed.

Lemma same_links_connected h1 h2 nodes u v :
  closed h1 nodes → same_links h1 h2 nodes →
  connected h1 nodes u v → connected h2 nodes u v.
Proof.
  intros Hclosed Hlinks. pose proof (proj1 (closed_spec _ _) Hclosed) as Hcl.
  assert (∀ x y, input_edge h1 nodes x y → sc (input_edge h2 nodes) x y) as Hstep.
  { intros x y [Hx (o & Ho & Hy)].
    destruct (Hcl x Hx) as (o' & Ho' & Hall). simplify_eq.
    assert (y ∈ nodes) as Hyn by auto.
    unfold same_links in Hlinks. rewrite Forall_forall in Hlinks.
    specialize (Hlinks x Hx). rewrite Forall_forall in Hlinks.
    assert (adjacent h2 x y) as [Hxy|Hyx].
    { apply (Hlinks y Hyn). left. by rewrite Ho. }
    - left. split; [done|]. destruct (h2 !! x) as [o2|] eqn:Ho2;
        [exists o2; by split|by apply elem_of_nil in Hxy].
    - right. split; [done|]. destruct (h2 !! y) as [o2|] eqn:Ho2;
        [exists o2; by split|by apply elem_of_nil in Hyx]. }
  unfold connected, rtsc. apply rtc_subrel. intros x y [Hxy|Hyx].
  - by apply Hstep.
  - destruct (Hstep _ _ Hyx); [by right|by left].
Qed.

Lemma same_links_sym h1 h2 nodes : same_links h1 h2 nodes → same_links h2 h1 nodes.
Proof.
  unfold same_links. rewrite !Forall_forall. intros H u Hu.
  specialize (H u Hu). rewrite Forall_forall in *. intros v Hv.
  by rewrite (H v Hv).
Qed.

(** A node that no input edge joins to another node is connected to
    itself only. *)
Lemma connected_isolated h nodes u v :
  (∀ w, w ≠ u → ¬ input_edge h nodes u w ∧ ¬ input_edge h nodes w u) →
  connected h nodes u v → v = u.
Proof.
  intros Hiso Hc. revert v Hc. apply (rtc_ind_r (λ v, v = u)); [done|].
  intros y z _ Hyz ->. destruct (decide (z = u)) as [|Hne]; [done|].
  destruct (Hiso z Hne) as [H1 H2]. by destruct Hyz.
Qed.

(** Numberings of two inputs with the same elements bucket them into the
    same groups, up to order. *)
Lemma groups_of_reordered h nodes nodes' f cnt f' cnt' gr :
  (∀ x, x ∈ nodes ↔ x ∈ nodes') →
  numbering h nodes f cnt → numbering h nodes' f' cnt' →
  gr ∈ groups_of f cnt (input_order nodes) →
  ∃ gr', gr' ∈ groups_of f' cnt' (input_order nodes') ∧ gr ≡ₚ gr'.
Proof.
  intros Hel (Hcnt & Hr & Hc & Hs & _) (Hcnt' & Hr' & Hc' & Hs' & _).
  intros (i & Hi & ->)%groups_of_elem_of.
  destruct (Hs (Z.of_nat i)) as (u & Hu & Hfu); [lia|].
  destruct (Hr' u (proj1 (Hel u) Hu)) as (z' & Hz' & Hrange').
  exists (filter (λ k, f' k = f' u) (input_order nodes')).
  split; [by eapply groups_of_number|].
  rewrite <- Hfu. apply NoDup_Permutation.
  - apply NoDup_filter, input_order_NoDup.
  - apply NoDup_filter, input_order_NoDup.
  - intros x. rewrite !list_elem_of_filter, !input_order_elem_of. split.
    + intros [Heq Hx]. split; [|by apply Hel]. symmetry.
      apply (Hc' u x); [by apply Hel..|].
      apply (connected_same_elements h nodes nodes'); [done|].
      by apply (Hc u x).
    + intros [Heq Hx]. apply Hel in Hx. split; [|done]. symmetry.
      apply (Hc u x); [done..|].
      apply (connected_same_elements h nodes nodes'); [done|].
      apply (Hc' u x); [by apply Hel..|done].
Qed.

(** ** The [val] properties stay as they are *)

Lemma same_vals_trans h1 h2 h3 : same_vals h1 h2 → same_vals h2 h3 → same_vals h1 h3.
Proof. intros H12 H23 l. by rewrite H23, H12. Qed.

Lemma same_vals_insert h l o o' :
  h !! l = Some o → val o' = val o → same_vals h (<[l:=o']> h).
Proof.
  intros Ho Hv l'. destruct (decide (l' = l)) as [->|Hne].
  - rewrite list_lookup_insert_eq by (by eapply lookup_lt_Some).
    rewrite Ho. simpl. by rewrite Hv.
  - by rewrite list_lookup_insert_ne.
Qed.

Lemma push_nextNodes_vals target x h h' :
  push_nextNodes target x h = Some h' → same_vals h h'.
Proof.
  unfold push_nextNodes. destruct (h !! target) as [o|] eqn:Ho; simpl; [|done].
  intros [= <-]. by eapply same_vals_insert.
Qed.

Lemma linkNextNodes_vals m sh next h :
  leaves (same_vals h) (linkNextNodes m sh next h).
Proof.
  revert h. induction next as [|v next IH]; intros h; simpl; [done|].
  destruct sh as [s|]; [|done]. destruct (map_get v m) as [t|]; [|done].
  destruct (push_nextNodes s t h) as [h1|] eqn:H1; [|done].
  destruct (push_nextNodes t s h1) as [h2|] eqn:H2.
  - specialize (IH h2).
    assert (same_vals h h2) as H12.
    { eapply same_vals_trans; by eapply push_nextNodes_vals. }
    destruct (linkNextNodes m (Some s) next h2); simpl in *;
      try done; by eapply same_vals_trans.
  - simpl. by eapply push_nextNodes_vals.
Qed.

Lemma linkShells_vals m nodes h :
  leaves (same_vals h) (linkShells m nodes h).
Proof.
  revert h. induction nodes as [|node nodes IH]; intros h; simpl; [done|].
  destruct (h !! node) as [o|]; [|done].
  pose proof (linkNextNodes_vals m (map_get node m) (nextNodes o) h) as H1.
  destruct (linkNextNodes m (map_get node m) (nextNodes o) h) as [h1 []|h1|];
    simpl in *; try done.
  specialize (IH h1).
  destruct (linkShells m nodes h1); simpl in *; try done; by eapply same_vals_trans.
Qed.

Lemma markGroup_vals shellNode c h : same_vals h (markGroup shellNode c h).1.
Proof.
  unfold markGroup. destruct (h !! shellNode) as [so|]; [|done].
  destruct (h !! c) as [co|] eqn:Hc; [|done]. simpl.
  by eapply same_vals_insert.
Qed.

Lemma graphBfs_markGroup_vals shellNode fuel root h :
  leaves (same_vals h) (graphBfs nextNodes_of (markGroup shellNode) fuel root h).
Proof.
  unfold graphBfs. rewrite loop_run.
  pose proof (run_invariant nextNodes_of (markGroup shellNode)
                (λ σ, same_vals h (store σ))) as Hrun.
  assert (∀ σ r, same_vals h (store σ) →
    graphBfs_iter nextNodes_of (markGroup shellNode) σ = r →
    match r with
    | Continue σ' => same_vals h (store σ')
    | Finished s | Raise s => same_vals h s
    end) as Hiter.
  { intros [[|c q] V s] r Hs <-; unfold graphBfs_iter; simpl in *; [done|].
    pose proof (markGroup_vals shellNode c s) as Hm.
    destruct (markGroup shellNode c s) as [s' [v|]]; simpl in *;
      [|by eapply same_vals_trans].
    destruct (negb (truthy v)); [|by eapply same_vals_trans].
    destruct (nextNodes_of s' c); by eapply same_vals_trans. }
  specialize (Hrun (λ σ σ' Hσ Hit, Hiter σ _ Hσ Hit)
                (2 ^ fuel)%nat (BfsState [root] ∅ h) (λ l, eq_refl)).
  destruct (graphBfs_run nextNodes_of (markGroup shellNode) (2 ^ fuel)
              (BfsState [root] ∅ h)) as [σ'|s|s]; simpl; [done| |].
  - by destruct Hrun as (σ' & ? & _ & <-).
  - destruct Hrun as (σ' & Hσ' & Hit). exact (Hiter σ' _ Hσ' Hit).
Qed.

Lemma assignGroups_vals m keys cnt h :
  leaves (same_vals h) (assignGroups m keys cnt h).
Proof.
  revert cnt h. induction keys as [|k keys IH]; intros cnt h; simpl; [done|].
  destruct (map_get k m) as [s|]; [|done].
  destruct (h !! s) as [o|] eqn:Ho; [|done].
  destruct (decide (g o = Some (-1))); [|apply IH].
  set (h1 := <[s:=_]> h).
  assert (same_vals h h1) as H1 by (by eapply same_vals_insert).
  pose proof (graphBfs_markGroup_vals s (bfs_fuel h1) s h1) as H2.
  destruct (graphBfs nextNodes_of (markGroup s) (bfs_fuel h1) s h1) as [h2 []|h2|];
    simpl in *; [|by eapply same_vals_trans|done].
  specialize (IH (cnt + 1) h2).
  assert (same_vals h h2) by (by eapply same_vals_trans).
  destruct (assignGroups m keys (cnt + 1) h2); simpl in *;
    try done; by eapply same_vals_trans.
Qed.

Lemma getConnectedComponent_vals nodes h :
  leaves (same_vals (h ++ (shell <$> nodes))) (getConnectedComponent nodes h).
Proof.
  unfold getConnectedComponent.
  destruct (makeShells nodes [] h) as [m h1] eqn:Hmk.
  apply makeShells_spec in Hmk as (-> & _).
  pose proof (linkShells_vals m nodes (h ++ (shell <$> nodes))) as H2.
  destruct (linkShells m nodes (h ++ (shell <$> nodes))) as [h2 []|h2|];
    simpl in *; try done.
  pose proof (assignGroups_vals m (map_keys m) 0 h2) as H3.
  destruct (assignGroups m (map_keys m) 0 h2) as [h3 cnt|h3|];
    simpl in *; [|by eapply same_vals_trans|done].
  pose proof (fillGroups_store m (map_keys m) h3 (newMatrix cnt)) as H4.
  destruct (fillGroups m (map_keys m) h3 (newMatrix cnt)); simpl; try done;
    subst; by eapply same_vals_trans.
Qed.

(** ** Which nodes [graphBfs] calls the callback on *)

Section GraphBfsVisits.
Context {St : Type}.
Variable graph : list (list loc).
Variable step : loc → St → St * option jsval.
Variable root : loc.

Local Abbreviation nb := (λ (_ : St * list loc) c, graph !! c).
Local Abbreviation iter := (graphBfs_iter nb (spy step)).

Lemma spy_calls c (s : St) calls :
  ((spy step c (s, calls)).1).2 = calls ++ [c].
Proof. unfold spy. simpl. by destruct (step c s). Qed.

Lemma iter_calls c q V (s : St) calls :
  (iter_store (iter (BfsState (c :: q) V (s, calls)))).2 = calls ++ [c].
Proof.
  unfold graphBfs_iter. simpl.
  pose proof (spy_calls c s calls) as Hc.
  destruct (spy step c (s, calls)) as [[s' calls'] [r|]]; simpl in *; [|done].
  destruct (negb (truthy r)); [|done]. by destruct (graph !! c).
Qed.

Lemma visit_inv_init (s : St) : visit_inv graph root (BfsState [root] ∅ (s, [])).
Proof.
  split_and!; simpl; [|intros x [?| ->%list_elem_of_singleton]; [set_solver|done]|done].
  intros x. split; [set_solver|by intros ?%elem_of_nil].
Qed.

(** One iteration with a non-empty queue keeps [visit_inv], as far as its
    first and third part go, whichever way the iteration ends. *)
Lemma visit_inv_calls c q V (s : St) calls :
  visit_inv graph root (BfsState (c :: q) V (s, calls)) →
  let calls' := (iter_store (iter (BfsState (c :: q) V (s, calls)))).2 in
  (∀ x, x ∈ {[c]} ∪ V ↔ x ∈ calls') ∧
  (∀ x, x ∈ calls' → rtc (gedge graph) root x) ∧
  (∃ rest, calls' = root :: rest).
Proof.
  intros (HV & Hreach & Hfirst). simpl in *. rewrite iter_calls. split_and!.
  - intros x. rewrite elem_of_app, list_elem_of_singleton, <- HV. set_solver.
  - intros x [Hx%HV| ->%list_elem_of_singleton]%elem_of_app.
    + apply Hreach. by left.
    + apply Hreach. right. by left.
  - destruct calls as [|c0 calls]; simplify_eq/=; eauto.
Qed.

Lemma visit_inv_keep (σ σ' : @bfs_state (St * list loc)) :
  visit_inv graph root σ → iter σ = Continue σ' → visit_inv graph root σ'.
Proof.
  destruct σ as [[|c q] V [s calls]]; [done|]. intros Hinv Hit.
  pose proof (visit_inv_calls c q V s calls Hinv) as (HV & Hreach & rest & Hfirst).
  rewrite Hit in *. simpl in *.
  destruct Hinv as (_ & Hreach0 & _). simpl in *.
  assert (rtc (gedge graph) root c) as Hc by (apply Hreach0; right; by left).
  revert Hit. unfold graphBfs_iter. simpl.
  destruct (spy step c (s, calls)) as [st' [r|]]; [|done].
  destruct (negb (truthy r)).
  - destruct (graph !! c) as [next|] eqn:Hnext; [|done]. intros [= <-].
    unfold visit_inv. simpl in *.
    split_and!; [done| |by rewrite Hfirst].
    intros x. rewrite push_unvisited_filter, elem_of_app, list_elem_of_filter.
    intros [Hx|[Hx|[_ Hx]]].
    + apply Hreach, HV, Hx.
    + apply Hreach0. right. by right.
    + eapply rtc_r; [done|]. by exists next.
  - intros [= <-]. unfold visit_inv. simpl in *.
    split_and!; [done| |by rewrite Hfirst].
    intros x [Hx|Hx].
    + apply Hreach, HV, Hx.
    + apply Hreach0. right. by right.
Qed.

(** Every call is on a node that [root] reaches, and the first is on
    [root]. *)
Lemma graphBfs_visits_reachable fuel (s : St) :
  leaves (λ st, (∃ rest, st.2 = root :: rest) ∧
                ∀ x, x ∈ st.2 → rtc (gedge graph) root x)
    (graphBfs nb (spy step) fuel root (s, [])).
Proof.
  unfold graphBfs. rewrite loop_run.
  pose proof (run_invariant nb (spy step) (visit_inv graph root) visit_inv_keep
                (2 ^ fuel)%nat _ (visit_inv_init s)) as Hrun.
  destruct (graphBfs_run nb (spy step) (2 ^ fuel) (BfsState [root] ∅ (s, [])))
    as [σ'|st|st]; simpl; [done| |].
  - destruct Hrun as ([q V [s' calls]] & (HV & Hreach & Hfirst) & Hq & <-).
    simpl in *. subst q. split.
    + destruct calls as [|c calls]; simplify_eq/=. eauto.
    + intros x Hx%HV. apply Hreach. by left.
  - destruct Hrun as ([[|c q] V [s' calls]] & Hinv & Hit); [done|].
    pose proof (visit_inv_calls c q V s' calls Hinv) as (_ & ? & ?).
    rewrite Hit in *. simpl in *. done.
Qed.

Hypothesis Hstep : never_stops step.

Lemma cover_inv_init (s : St) : cover_inv graph root (BfsState [root] ∅ (s, [])).
Proof.
  split_and!; [apply visit_inv_init|..]; simpl; intros x; set_solver.
Qed.

Lemma cover_inv_iter (σ : @bfs_state (St * list loc)) :
  cover_inv graph root σ →
  match iter σ with
  | Continue σ' => cover_inv graph root σ'
  | Finished _ => queue σ = []
  | Raise st =>
      ∃ x, rtc (gedge graph) root x ∧ graph !! x = None ∧ last st.2 = Some x
  end.
Proof.
  intros (Hinv & Hlist & Hclo).
  destruct σ as [[|c q] V [s calls]]; [done|].
  pose proof (λ σ', visit_inv_keep _ σ' Hinv) as Hkeep.
  pose proof (iter_calls c q V s calls) as Hcalls.
  destruct Hinv as (HV & Hreach & Hfirst). simpl in *.
  assert (rtc (gedge graph) root c) as Hc by (apply Hreach; right; by left).
  revert Hkeep Hcalls. unfold graphBfs_iter. simpl.
  destruct (Hstep c s) as (r & Hr & Hfalsy). unfold spy at 1 2 3. simpl.
  destruct (step c s) as [s' ?]. simpl in Hr. subst. rewrite Hfalsy. simpl.
  destruct (graph !! c) as [next|] eqn:Hnext; simpl.
  - intros Hkeep _. split_and!; [by apply Hkeep|..]; simpl.
    + intros x [->%elem_of_singleton|Hx]%elem_of_union; [by rewrite Hnext|auto].
    + intros x y. rewrite push_unvisited_filter, elem_of_app, list_elem_of_filter.
      intros [->%elem_of_singleton|Hx]%elem_of_union Hxy.
      * destruct Hxy as (next' & Hn' & Hy). simplify_eq.
        destruct (decide (y ∈ {[c]} ∪ V)); [by left|]. right. right. done.
      * destruct (Hclo x y Hx Hxy) as [?|[->|?]%elem_of_cons].
        -- left. set_solver.
        -- left. set_solver.
        -- right. by left.
  - intros _ _. exists c. split_and!; [done..|]. by rewrite last_snoc.
Qed.

Lemma cover_inv_keep (σ σ' : @bfs_state (St * list loc)) :
  cover_inv graph root σ → iter σ = Continue σ' → cover_inv graph root σ'.
Proof. intros Hσ%cover_inv_iter Hit. by rewrite Hit in Hσ. Qed.

Lemma cover_inv_closed (σ : @bfs_state (St * list loc)) x :
  cover_inv graph root σ → queue σ = [] →
  rtc (gedge graph) root x ↔ x ∈ visitedNodes σ.
Proof.
  intros ((HV & Hreach & Hfirst) & Hlist & Hclo) Hq. rewrite Hq in *. split.
  - revert x. apply (rtc_ind_r (λ x, x ∈ visitedNodes σ)).
    + apply HV. revert Hfirst.
      destruct ((store σ).2) as [|c calls]; [done|]. intros ->. by left.
    + intros y z _ Hyz IH.
      destruct (Hclo y z IH Hyz) as [?|?%elem_of_nil]; done.
  - intros. apply Hreach. by left.
Qed.

(** With a callback that never stops the traversal ends normally exactly
    when every node that [root] reaches has a neighbour list, and then the
    callback has been called on all those nodes; otherwise it throws right
    after the call on a reachable node without a list. *)
Lemma graphBfs_covers fuel (s : St) :
  (graph_fuel graph ≤ fuel)%nat →
  match graphBfs nb (spy step) fuel root (s, []) with
  | Normal st _ =>
      (∀ x, rtc (gedge graph) root x → is_Some (graph !! x)) ∧
      (∀ x, x ∈ st.2 ↔ rtc (gedge graph) root x)
  | Throw st =>
      ∃ x, rtc (gedge graph) root x ∧ graph !! x = None ∧ last st.2 = Some x
  | OutOfFuel => False
  end.
Proof.
  intros Hfuel.
  pose proof (graphBfs_enough_fuel nb (spy step) (seq 0 (length graph))
                (max_list (length <$> graph)) (λ _, True) (λ _ _ _, I)) as Hend.
  specialize (Hend (λ _ c next _ Hc, conj
    (proj2 (elem_of_seq 0 (length graph) c)
       (conj (Nat.le_0_l c) (lookup_lt_Some _ _ _ Hc)))
    (max_list_elem_of_le _ _
       (proj2 (list_elem_of_fmap length graph (length next))
          (ex_intro _ next (conj eq_refl (list_elem_of_lookup_2 _ _ _ Hc))))))
    fuel root (s, []) I).
  unfold graphBfs in *. rewrite loop_run in *.
  pose proof (run_invariant nb (spy step) (cover_inv graph root) cover_inv_keep
                (2 ^ fuel)%nat _ (cover_inv_init s)) as Hrun.
  destruct (graphBfs_run nb (spy step) (2 ^ fuel) (BfsState [root] ∅ (s, [])))
    as [σ'|st|st].
  - apply Hend; [|done]. unfold graph_fuel in Hfuel. rewrite length_seq. lia.
  - destruct Hrun as (σ' & Hinv & Hq & <-). split.
    + intros x Hx. destruct Hinv as (? & Hlist & ?). apply Hlist.
      by apply (cover_inv_closed σ' x).
    + intros x. destruct Hinv as ((HV & ?) & ?) eqn:E. rewrite <- HV.
      symmetry. apply cover_inv_closed; [|done]. by split.
  - destruct Hrun as (σ' & Hinv%cover_inv_iter & Hit). by rewrite Hit in Hinv.
Qed.
End GraphBfsVisits.

(** ** Generations, and the order of the calls of [treeBfs] *)

Section LevelFacts.
Variable children : loc → list loc.

Local Abbreviation nxt := (next_level children).
Local Abbreviation lvl := (level children).
Local Abbreviation ord := (level_order children).

Lemma next_level_app q r : nxt (q ++ r) = nxt q ++ nxt r.
Proof. unfold next_level. apply bind_app. Qed.

Lemma next_level_cons c q : nxt (c :: q) = children c ++ nxt q.
Proof. done. Qed.

Lemma elem_of_next_level q y : y ∈ nxt q ↔ ∃ x, x ∈ q ∧ y ∈ children x.
Proof. unfold next_level. rewrite list_elem_of_bind. naive_solver. Qed.

Lemma level_app d q r : lvl d (q ++ r) = lvl d q ++ lvl d r.
Proof.
  revert q r. induction d as [|d IH]; intros q r; simpl; [done|].
  by rewrite next_level_app, IH.
Qed.

Lemma level_nil d : lvl d [] = [].
Proof. induction d; simpl; auto. Qed.

Lemma level_add a b q : lvl (a + b) q = lvl b (lvl a q).
Proof. revert q. induction a as [|a IH]; intros q; simpl; auto. Qed.

Lemma level_succ_r d q : lvl (S d) q = nxt (lvl d q).
Proof. replace (S d) with (d + 1)%nat by lia. by rewrite level_add. Qed.

(** Once a generation is empty, the later ones are. *)
Lemma level_empty_later d d' q : (d ≤ d')%nat → lvl d q = [] → lvl d' q = [].
Proof.
  intros Hle Hd. replace d' with (d + (d' - d))%nat by lia.
  by rewrite level_add, Hd, level_nil.
Qed.

Lemma elem_of_level_below d q y : y ∈ lvl d q ↔ ∃ x, x ∈ q ∧ y ∈ lvl d [x].
Proof.
  induction q as [|c q IH].
  - rewrite level_nil. split; [by intros ?%elem_of_nil|].
    by intros (x & ?%elem_of_nil & _).
  - change (c :: q) with ([c] ++ q). rewrite level_app, elem_of_app, IH. split.
    + intros [?|(x & ? & ?)]; [exists c; split; [by left|done]|].
      exists x. split; [by right|done].
    + intros (x & [->|?]%elem_of_cons & ?); [by left|right; eauto].
Qed.

Lemma level_path a b q x y : x ∈ lvl a q → y ∈ lvl b [x] → y ∈ lvl (a + b) q.
Proof.
  intros Hx Hy. rewrite level_add. apply elem_of_level_below. eauto.
Qed.

(** A node that lies on a cycle below [q] keeps every generation
    inhabited. *)
Lemma level_cycle q x k m d :
  x ∈ lvl k q → x ∈ lvl (S m) [x] → lvl d q ≠ [].
Proof.
  intros Hk Hm.
  assert (∀ j, x ∈ lvl (j * S m) [x]) as Hloop.
  { induction j as [|j IH]; simpl; [by left|].
    replace (S (m + j * S m)) with (j * S m + S m)%nat by lia.
    by eapply level_path. }
  intros Hd. apply (level_empty_later d (k + d * S m)) in Hd; [|lia].
  pose proof (level_path k (d * S m) q x x Hk (Hloop d)) as Hin.
  rewrite Hd in Hin. by apply elem_of_nil in Hin.
Qed.

Lemma level_order_subseteq d q : lvl d q = [] → q ⊆ ord d q.
Proof.
  destruct d as [|d]; simpl.
  - intros ->. done.
  - intros _ x Hx. apply elem_of_app. by left.
Qed.
End LevelFacts.

Section TreeBfsOrder.
Context {St : Type}.
Variable children : loc → list loc.
Variable step : loc → St → St * option jsval.
Hypothesis Hstep : never_stops step.

Local Abbreviation nb := (λ (_ : St) c, Some (children c)).
Local Abbreviation nxt := (next_level children).

Lemma push_all_app (q next : list loc) :
  foldl (λ q nextNode, q ++ [nextNode]) q next = q ++ next.
Proof.
  revert q. induction next as [|x next IH]; intros q; simpl.
  - by rewrite app_nil_r.
  - rewrite IH. by rewrite <- app_assoc.
Qed.

Lemma treeBfs_iter_falsy c q s :
  treeBfs_iter nb step (c :: q) s = TContinue (q ++ children c) (step c s).1.
Proof.
  unfold treeBfs_iter. destruct (Hstep c s) as (r & Hr & Hfalsy).
  destruct (step c s) as [s' ?]. simpl in *. subst.
  by rewrite Hfalsy, push_all_app.
Qed.

Lemma treeBfs_loop_S n c q s :
  treeBfs_loop nb step (S n) (c :: q) s =
  treeBfs_loop nb step n (q ++ children c) (step c s).1.
Proof.
  change (treeBfs_loop nb step (S n) (c :: q) s) with
    (match treeBfs_iter nb step (c :: q) s with
     | TContinue queue s => treeBfs_loop nb step n queue s
     | TFinished s => Normal s ()
     | TRaise s => Throw s
     end).
  by rewrite treeBfs_iter_falsy.
Qed.

(** Working off the nodes of [q] puts their children behind what was
    queued after them. *)
Lemma treeBfs_loop_level q r s n :
  treeBfs_loop nb step (length q + n) (q ++ r) s =
  treeBfs_loop nb step n (r ++ nxt q) (after_calls step s q).
Proof.
  revert r s. induction q as [|c q IH]; intros r s.
  - simpl. by rewrite app_nil_r.
  - change (length (c :: q) + n)%nat with (S (length q + n)).
    change ((c :: q) ++ r) with (c :: (q ++ r)).
    rewrite treeBfs_loop_S, <- app_assoc, IH, next_level_cons.
    by rewrite <- app_assoc.
Qed.

Lemma treeBfs_loop_short q r s n :
  (n ≤ length q)%nat → treeBfs_loop nb step n (q ++ r) s = OutOfFuel.
Proof.
  revert q r s. induction n as [|n IH]; intros q r s Hn; [done|].
  destruct q as [|c q]; [simpl in Hn; lia|].
  change ((c :: q) ++ r) with (c :: (q ++ r)).
  rewrite treeBfs_loop_S, <- app_assoc. apply IH. simpl in Hn. lia.
Qed.

Lemma after_calls_app s l l' :
  after_calls step (after_calls step s l) l' = after_calls step s (l ++ l').
Proof. unfold after_calls. by rewrite foldl_app. Qed.

(** A tree of finite depth is gone through generation by generation. *)
Lemma treeBfs_loop_levels d q s fuel :
  level children d q = [] →
  (length (level_order children d q) < fuel)%nat →
  treeBfs_loop nb step fuel q s =
    Normal (after_calls step s (level_order children d q)) ().
Proof.
  revert q s fuel. induction d as [|d IH]; intros q s fuel; simpl.
  - intros -> Hfuel. destruct fuel; [lia|]. done.
  - rewrite length_app. intros Hd Hfuel.
    pose proof (treeBfs_loop_level q [] s (fuel - length q)) as Hl.
    rewrite app_nil_r, app_nil_l in Hl.
    replace (length q + (fuel - length q))%nat with fuel in Hl by lia.
    rewrite Hl, (IH _ _ _ Hd) by lia. by rewrite after_calls_app.
Qed.

(** Below a tree without a last generation the loop never ends. *)
Lemma treeBfs_loop_endless fuel q s :
  (∀ d, level children d q ≠ []) → treeBfs_loop nb step fuel q s = OutOfFuel.
Proof.
  revert q s. induction fuel as [fuel IH] using lt_wf_ind. intros q s Hlevels.
  destruct (decide (fuel ≤ length q)%nat) as [Hle|Hgt].
  - rewrite <- (app_nil_r q). by apply treeBfs_loop_short.
  - assert (q ≠ []) as Hq by apply (Hlevels 0%nat).
    pose proof (treeBfs_loop_level q [] s (fuel - length q)) as Hl.
    rewrite app_nil_r, app_nil_l in Hl.
    replace (length q + (fuel - length q))%nat with fuel in Hl by lia.
    rewrite Hl. apply IH.
    + destruct q; [done|]. simpl. lia.
    + intros d. apply (Hlevels (S d)).
Qed.
End TreeBfsOrder.

Lemma never_stops_spy {St : Type} (step : loc → St → St * option jsval) :
  never_stops step → never_stops (spy step).
Proof.
  intros Hstep c [s calls]. destruct (Hstep c s) as (r & Hr & Hfalsy).
  exists r. unfold spy. simpl. destruct (step c s). simpl in *. by subst.
Qed.

Lemma after_calls_spy {St : Type} (step : loc → St → St * option jsval) s calls l :
  after_calls (spy step) (s, calls) l = (after_calls step s l, calls ++ l).
Proof.
  revert s calls. induction l as [|c l IH]; intros s calls; simpl.
  - by rewrite app_nil_r.
  - unfold after_calls in *. simpl. unfold spy at 2. simpl.
    destruct (step c s) as [s' r] eqn:Hs. simpl. rewrite IH.
    by rewrite <- app_assoc.
Qed.

(** ** [graphBfs] on a tree *)

Lemma filter_all (P : loc → Prop) `{!∀ x, Decision (P x)} (l : list loc) :
  (∀ x, x ∈ l → P x) → filter P l = l.
Proof.
  induction l as [|a l IH]; intros Hall; [done|].
  rewrite filter_cons, decide_True by (apply Hall; by left).
  f_equal. apply IH. intros; apply Hall; by right.
Qed.

Section GraphBfsTree.
Context {St : Type}.
Variable children : loc → list loc.
Variable step : loc → St → St * option jsval.
Hypothesis Hstep : never_stops step.

Local Abbreviation nb := (λ (_ : St) c, Some (children c)).
Local Abbreviation nxt := (next_level children).
Local Abbreviation run := (graphBfs_run nb step).

Lemma graphBfs_iter_fresh c q V s :
  (∀ y, y ∈ children c → y ∉ {[c]} ∪ V) →
  graphBfs_iter nb step (BfsState (c :: q) V s) =
    Continue (BfsState (q ++ children c) ({[c]} ∪ V) (step c s).1).
Proof.
  intros Hfresh. unfold graphBfs_iter. simpl.
  destruct (Hstep c s) as (r & Hr & Hfalsy).
  destruct (step c s) as [s' ?]. simpl in *. subst. rewrite Hfalsy. simpl.
  by rewrite push_unvisited_filter, filter_all.
Qed.

Lemma graphBfs_run_S n σ :
  run (S n) σ = match graphBfs_iter nb step σ with
                | Continue σ' => run n σ'
                | r => r
                end.
Proof. done. Qed.

(** Working off the nodes of [q], whose children are all new, puts the
    children behind what was queued after them. *)
Lemma graphBfs_run_level q r V s n :
  (∀ c y, c ∈ q → y ∈ children c → (y ∉ V) ∧ y ∉ q) →
  run (length q + n) (BfsState (q ++ r) V s) =
  run n (BfsState (r ++ nxt q) (list_to_set q ∪ V) (after_calls step s q)).
Proof.
  revert r V s. induction q as [|c q IH]; intros r V s Hnew.
  - simpl. rewrite app_nil_r. f_equal. f_equal. set_solver.
  - change (length (c :: q) + n)%nat with (S (length q + n)).
    change ((c :: q) ++ r) with (c :: (q ++ r)).
    rewrite graphBfs_run_S, graphBfs_iter_fresh.
    + rewrite <- app_assoc, IH.
      * rewrite next_level_cons, <- app_assoc. f_equal. f_equal.
        rewrite list_to_set_cons. set_solver.
      * intros c' y Hc' Hy. destruct (Hnew c' y) as [HV Hq]; [by right|done|].
        apply not_elem_of_cons in Hq as [Hne Hq]. split; [set_solver|done].
    + intros y Hy. destruct (Hnew c y) as [HV Hq]; [by left|done|].
      apply not_elem_of_cons in Hq as [Hne Hq]. set_solver.
Qed.

(** A tree of finite depth in which no node is met twice is gone through
    generation by generation. *)
Lemma graphBfs_run_levels d q V s n :
  level children d q = [] →
  NoDup (level_order children d q) →
  (∀ x, x ∈ level_order children d q → x ∉ V) →
  run (S (length (level_order children d q)) + n) (BfsState q V s) =
    Finished (after_calls step s (level_order children d q)).
Proof.
  revert q V s. induction d as [|d IH]; intros q V s; cbn [level level_order].
  - by intros -> _ _.
  - intros Hd Hnd HV. apply NoDup_app in Hnd as (Hq & Hdisj & Hrest).
    pose proof (graphBfs_run_level q [] V s
                  (S (length (level_order children d (nxt q))) + n)) as Hl.
    rewrite app_nil_r, app_nil_l in Hl.
    replace (S (length (q ++ level_order children d (nxt q))) + n)%nat
      with (length q + (S (length (level_order children d (nxt q))) + n))%nat
      by (rewrite length_app; lia).
    rewrite Hl.
    + rewrite IH; [by rewrite after_calls_app|done..|].
      intros x Hx. apply not_elem_of_union. split.
      * rewrite elem_of_list_to_set. intros Hxq. by apply (Hdisj x).
      * apply HV, elem_of_app. by right.
    + intros c y Hc Hy.
      assert (y ∈ level_order children d (nxt q)) as Hin.
      { apply level_order_subseteq; [done|]. apply elem_of_next_level. eauto. }
      split; [apply HV, elem_of_app; by right|].
      intros Hyq. by apply (Hdisj y).
Qed.
End GraphBfsTree.

Lemma treeBfs_calls_level_order_aux {St : Type} (children : loc → list loc)
    (step : loc → St → St * option jsval) (root : loc) (s : St) (d fuel : nat) :
  never_stops step →
  level children d [root] = [] →
  (length (level_order children d [root]) < fuel)%nat →
  treeBfs (λ _ c, Some (children c)) (spy step) fuel root (s, []) =
    Normal (after_calls step s (level_order children d [root]),
            level_order children d [root]) ().
Proof.
  intros Hstep Hd Hfuel. unfold treeBfs.
  rewrite (treeBfs_loop_levels children (spy step) (never_stops_spy step Hstep)
             d [root] (s, []) fuel Hd Hfuel).
  by rewrite after_calls_spy.
Qed.

(** ** The properties of the specification *)

(** C1.  On a closed input the call returns groups in which two input nodes
    share a group exactly when a path of input edges, each taken in either
    direction, joins them. *)
Theorem same_group_iff_connected (h : heap) (nodes : list loc) :
  closed h nodes →
  ∃ h' groups,
    getConnectedComponent nodes h = Normal h' groups ∧
    ∀ u v, u ∈ nodes → v ∈ nodes →
      same_group groups u v ↔ connected h nodes u v.
Proof.
  intros Hclosed.
  destruct (getConnectedComponent_closed h nodes Hclosed)
    as (h' & cnt & Hrun & _ & (Hcnt & Hr & Hc & _) & _).
  eexists _, _. split; [exact Hrun|].
  set (f := gid (makeShells nodes [] h).1 h') in *.
  intros u v Hu Hv. rewrite <- (Hc u v Hu Hv). split.
  - intros (gr & Hgr & Hugr & Hvgr). unfold groups_of in Hgr.
    apply list_elem_of_fmap in Hgr as (i & -> & _).
    apply list_elem_of_filter in Hugr as [-> _].
    apply list_elem_of_filter in Hvgr as [-> _]. done.
  - intros Heq. destruct (Hr u Hu) as (z & Hz & Hrange).
    exists (filter (λ k, f k = Some (Z.of_nat (Z.to_nat z))) (input_order nodes)).
    split_and!.
    + unfold groups_of. apply list_elem_of_fmap. exists (Z.to_nat z).
      split; [done|]. apply elem_of_seq. lia.
    + apply list_elem_of_filter. rewrite input_order_elem_of.
      split; [|done]. rewrite Hz. f_equal. lia.
    + apply list_elem_of_filter. rewrite input_order_elem_of.
      split; [|done]. rewrite <- Heq, Hz. f_equal. lia.
Qed.

Lemma same_group_iff_connected_witness :
  ∃ h' groups,
    getConnectedComponent [0; 1; 2; 3]%nat two_pairs = Normal h' groups ∧
    ∀ u v, u ∈ [0; 1; 2; 3]%nat → v ∈ [0; 1; 2; 3]%nat →
      same_group groups u v ↔ connected two_pairs [0; 1; 2; 3]%nat u v.
Proof.
  apply (same_group_iff_connected two_pairs [0; 1; 2; 3]%nat).
  apply (bool_decide_unpack _). vm_compute. reflexivity.
Defined.

(** C2.  On a closed input every input node is in a returned group, and the
    groups laid end to end hold no node twice: no node is left out, none is in
    two groups or twice in one. *)
Theorem every_node_in_one_group (h : heap) (nodes : list loc) :
  closed h nodes →
  ∃ h' groups,
    getConnectedComponent nodes h = Normal h' groups ∧
    (∀ u, u ∈ nodes → ∃ gr, gr ∈ groups ∧ u ∈ gr) ∧
    (∀ u, u ∈ concat groups → u ∈ nodes) ∧
    NoDup (concat groups).
Proof.
  intros Hclosed.
  destruct (getConnectedComponent_closed h nodes Hclosed)
    as (h' & cnt & Hrun & _ & _ & Hperm).
  eexists _, _. split; [exact Hrun|].
  set (groups := groups_of _ _ _) in *. split_and!.
  - intros u Hu. apply input_order_elem_of in Hu. rewrite <- Hperm in Hu.
    apply elem_of_concat in Hu as (gr & ? & ?). eauto.
  - intros u Hu. rewrite Hperm in Hu. by apply input_order_elem_of.
  - rewrite Hperm. apply input_order_NoDup.
Qed.

Lemma every_node_in_one_group_witness :
  ∃ h' groups,
    getConnectedComponent [0; 1; 2; 3]%nat two_pairs = Normal h' groups ∧
    (∀ u, u ∈ [0; 1; 2; 3]%nat → ∃ gr, gr ∈ groups ∧ u ∈ gr) ∧
    (∀ u, u ∈ concat groups → u ∈ [0; 1; 2; 3]%nat) ∧
    NoDup (concat groups).
Proof.
  apply (every_node_in_one_group two_pairs [0; 1; 2; 3]%nat).
  apply (bool_decide_unpack _). vm_compute. reflexivity.
Defined.

(** C3.  The claim that the callback is invoked at most once per node fails
    on the code.  On the diamond [R → A], [R → B], [A → C], [B → C] the
    traversal from [R] hands [C] to the callback twice: [C] is pushed by [A]
    and by [B] before it is first taken off the queue.  The same happens
    during group propagation over the shell graph of a triangle, where the
    shell node of [C] is written a second time after it has its group. *)
Theorem graphBfs_calls_node_twice :
  graphBfs (λ _ c, diamond !! c) record_call 3 0%nat []
    = Normal [0; 1; 2; 3; 3]%nat () ∧
  makeShells [0; 1; 2]%nat [] triangle
    = ([(0, 3); (1, 4); (2, 5)]%nat, triangle ++ (shell <$> [0; 1; 2]%nat)) ∧
  linkShells [(0, 3); (1, 4); (2, 5)]%nat [0; 1; 2]%nat
      (triangle ++ (shell <$> [0; 1; 2]%nat))
    = Normal triangle_linked () ∧
  ∃ h',
    graphBfs (λ s, nextNodes_of s.1) (spy (markGroup 3)) 4 3%nat
        (<[3%nat := Obj (Some 0%nat) [4; 5]%nat (Some 0)]> triangle_linked, [])
      = Normal (h', [3; 4; 5; 5]%nat) ().
Proof.
  split_and!; [vm_compute; reflexivity..|].
  eexists. vm_compute. reflexivity.
Qed.

(** C4.  After the first two loops on a closed input, every input edge
    [u → v] has its shell edge from the shell node of [u] to that of [v]
    and the reverse shell edge. *)
Theorem shell_graph_mirrors_edges (h : heap) (nodes : list loc) :
  closed h nodes →
  ∃ node2shellNodes h1 h2,
    makeShells nodes [] h = (node2shellNodes, h1) ∧
    linkShells node2shellNodes nodes h1 = Normal h2 () ∧
    ∀ u v, u ∈ nodes → edge h u v →
      ∃ shellU shellV,
        map_get u node2shellNodes = Some shellU ∧
        map_get v node2shellNodes = Some shellV ∧
        val <$> h2 !! shellU = Some (Some u) ∧
        val <$> h2 !! shellV = Some (Some v) ∧
        edge h2 shellU shellV ∧ edge h2 shellV shellU.
Proof.
  intros Hclosed. destruct (makeShells nodes [] h) as [m h1] eqn:Hmk.
  destruct (linkShells_closed _ _ _ _ Hclosed Hmk) as (h2 & Hlink & (_ & Hwf & _) & Hmir).
  exists m, h1, h2. split_and!; [done..|].
  intros u v Hu Huv. destruct (Hmir u v Hu Huv) as (su & sv & Hsu & Hsv & ? & ?).
  exists su, sv.
  destruct (Hwf _ _ Hsu) as (_ & ou & Hou & Hvu & _).
  destruct (Hwf _ _ Hsv) as (_ & ov & Hov & Hvv & _).
  rewrite Hou, Hov. simpl. rewrite Hvu, Hvv. done.
Qed.

Lemma shell_graph_mirrors_edges_witness :
  ∃ node2shellNodes h1 h2,
    makeShells [0; 1; 2]%nat [] triangle = (node2shellNodes, h1) ∧
    linkShells node2shellNodes [0; 1; 2]%nat h1 = Normal h2 () ∧
    ∀ u v, u ∈ [0; 1; 2]%nat → edge triangle u v →
      ∃ shellU shellV,
        map_get u node2shellNodes = Some shellU ∧
        map_get v node2shellNodes = Some shellV ∧
        val <$> h2 !! shellU = Some (Some u) ∧
        val <$> h2 !! shellV = Some (Some v) ∧
        edge h2 shellU shellV ∧ edge h2 shellV shellU.
Proof.
  apply (shell_graph_mirrors_edges triangle [0; 1; 2]%nat).
  apply (bool_decide_unpack _). vm_compute. reflexivity.
Defined.




(** C6.  Whatever the input, the call ends, normally or by a throw, and
    the store it leaves is the store it was given followed by the objects
    it allocated: every object that existed before the call, its
    [nextNodes] and its other properties, is as it was. *)
Theorem input_is_not_mutated (h : heap) (nodes : list loc) :
  match getConnectedComponent nodes h with
  | Normal h' _ | Throw h' => h `prefix_of` h'
  | OutOfFuel => False
  end.
Proof. apply getConnectedComponent_frame. Qed.

(** C7.  On a closed input a second call, made on the same nodes in the
    store the first call left, returns the same groups. *)
Theorem second_run_same_groups (h : heap) (nodes : list loc) :
  closed h nodes →
  ∃ h1 h2 groups,
    getConnectedComponent nodes h = Normal h1 groups ∧
    getConnectedComponent nodes h1 = Normal h2 groups.
Proof.
  intros Hclosed.
  destruct (getConnectedComponent_closed h nodes Hclosed)
    as (h1 & cnt1 & Hrun1 & Hpre & Hnum1 & _).
  pose proof (closed_prefix _ _ _ Hclosed Hpre) as Hclosed1.
  destruct (getConnectedComponent_closed h1 nodes Hclosed1)
    as (h2 & cnt2 & Hrun2 & _ & Hnum2 & _).
  apply (numbering_prefix _ _ _ _ _ Hclosed Hpre) in Hnum2.
  destruct (numbering_unique _ _ _ _ _ _ Hnum1 Hnum2) as [-> Heq].
  eexists h1, h2, _. split; [exact Hrun1|]. rewrite Hrun2. f_equal.
  symmetry. apply groups_of_ext. intros k Hk. by apply Heq, input_order_elem_of.
Qed.

Lemma second_run_same_groups_witness :
  ∃ h1 h2 groups,
    getConnectedComponent [0; 1; 2; 3]%nat two_pairs = Normal h1 groups ∧
    getConnectedComponent [0; 1; 2; 3]%nat h1 = Normal h2 groups.
Proof.
  apply (second_run_same_groups two_pairs [0; 1; 2; 3]%nat).
  apply (bool_decide_unpack _). vm_compute. reflexivity.
Defined.

(** C8.  [graphBfs] ends on every finite graph, cycles and self-loops
    included, whatever the callback does: with enough fuel the loop is left,
    by an empty queue or by a throw. *)
Theorem graphBfs_terminates {St : Type} (graph : list (list loc))
    (step : loc → St → St * option jsval) (root : loc) (s : St) :
  ∃ fuel, ∀ fuel', (fuel ≤ fuel')%nat →
    graphBfs (λ _ c, graph !! c) step fuel' root s ≠ OutOfFuel.
Proof.
  exists (S (max_list (length <$> graph) * length (seq 0 (length graph)))).
  intros fuel' Hfuel.
  apply (graphBfs_enough_fuel (λ _ c, graph !! c) step (seq 0 (length graph))
           (max_list (length <$> graph)) (λ _, True)); [done| |done|lia].
  intros _ c next _ Hc. split.
  - apply elem_of_seq. apply lookup_lt_Some in Hc. lia.
  - apply max_list_elem_of_le, list_elem_of_fmap. exists next.
    split; [done|]. by eapply list_elem_of_lookup_2.
Qed.

(** C9.  When a closed input names a node [u] more than once, the map of
    the first loop holds one entry for [u], and [u] occurs once in the
    returned groups. *)
Theorem duplicate_node_once (h : heap) (nodes : list loc) (u : loc) :
  closed h nodes →
  (1 < length (filter (λ x, x = u) nodes))%nat →
  ∃ h' groups,
    getConnectedComponent nodes h = Normal h' groups ∧
    length (filter (λ kv, kv.1 = u) (makeShells nodes [] h).1) = 1%nat ∧
    length (filter (λ x, x = u) (concat groups)) = 1%nat.
Proof.
  intros Hclosed Hdup.
  assert (u ∈ nodes) as Hu by (apply filter_eq_elem_of; lia).
  destruct (getConnectedComponent_closed h nodes Hclosed)
    as (h' & cnt & Hrun & _ & _ & Hperm).
  eexists _, _. split; [exact Hrun|]. split.
  - destruct (makeShells nodes [] h) as [m h1] eqn:Hmk. simpl.
    rewrite filter_key_length, (makeShells_keys _ _ _ _ Hmk).
    apply filter_eq_once; [apply input_order_NoDup|by apply input_order_elem_of].
  - apply filter_eq_once.
    + rewrite Hperm. apply input_order_NoDup.
    + rewrite Hperm. by apply input_order_elem_of.
Qed.

Lemma duplicate_node_once_witness :
  ∃ h' groups,
    getConnectedComponent [0; 1; 0]%nat twice_named = Normal h' groups ∧
    length (filter (λ kv, kv.1 = 0%nat) (makeShells [0; 1; 0]%nat [] twice_named).1) = 1%nat ∧
    length (filter (λ x, x = 0%nat) (concat groups)) = 1%nat.
Proof.
  apply (duplicate_node_once twice_named [0; 1; 0]%nat 0%nat).
  - apply (bool_decide_unpack _). vm_compute. reflexivity.
  - vm_compute. lia.
Defined.

(** C10.  In [treeBfs] and in [graphBfs], when the callback returns a
    truthy value for the node taken off the queue, the queue gets none of
    that node's successors; when it returns a falsy value, [treeBfs] pushes
    all of them and [graphBfs] all that are not visited.  A truthy answer at
    the root therefore ends either traversal after that one call. *)
Theorem truthy_step_stops_expansion {St : Type}
    (neighbours : St → loc → option (list loc)) (step : loc → St → St * option jsval)
    (c : loc) (queue : list loc) (visited : gset loc) (s s' : St) (r : jsval) :
  step c s = (s', Some r) →
  treeBfs_iter neighbours step (c :: queue) s =
    (if truthy r then TContinue queue s'
     else match neighbours s' c with
          | Some next => TContinue (queue ++ next) s'
          | None => TRaise s'
          end) ∧
  graphBfs_iter neighbours step (BfsState (c :: queue) visited s) =
    (if truthy r then Continue (BfsState queue ({[c]} ∪ visited) s')
     else match neighbours s' c with
          | Some next =>
              Continue (BfsState (queue ++ filter (λ x, x ∉ {[c]} ∪ visited) next)
                                 ({[c]} ∪ visited) s')
          | None => Raise s'
          end) ∧
  (if truthy r then
     ∀ fuel, treeBfs neighbours step (S (S fuel)) c s = Normal s' () ∧
             graphBfs neighbours step (S fuel) c s = Normal s' ()
   else True).
Proof.
  intros Hstep. split_and!.
  - unfold treeBfs_iter. rewrite Hstep. destruct (truthy r); simpl; [done|].
    destruct (neighbours s' c) as [next|]; [|done]. f_equal.
    clear. revert queue. induction next as [|x next IH]; intros queue; simpl.
    + by rewrite app_nil_r.
    + rewrite IH. by rewrite <- app_assoc.
  - unfold graphBfs_iter. simpl. rewrite Hstep. destruct (truthy r); simpl; [done|].
    destruct (neighbours s' c) as [next|]; [|done].
    by rewrite push_unvisited_filter.
  - destruct (truthy r) eqn:Hr; [|done]. intros fuel. split.
    + unfold treeBfs. simpl. rewrite Hstep, Hr. simpl. done.
    + unfold graphBfs. rewrite loop_run.
      assert (graphBfs_run neighbours step 2 (BfsState [c] ∅ s) = Finished s') as Hrun.
      { cbn. unfold graphBfs_iter at 1. cbn. rewrite Hstep, Hr. cbn. done. }
      pose proof (graphBfs_run_more neighbours step 2 (2 ^ S fuel) (BfsState [c] ∅ s)) as Hmore.
      rewrite Hrun in Hmore. rewrite Hmore; [done|].
      change (2 ^ 1 ≤ 2 ^ S fuel)%nat. apply Nat.pow_le_mono_r; lia.
Qed.

Lemma truthy_step_stops_expansion_witness :
  treeBfs_iter (λ _ c, cycle !! c) stop_at_first [0; 2]%nat [] =
    TContinue [2%nat] [0%nat] ∧
  graphBfs_iter (λ _ c, cycle !! c) stop_at_first (BfsState [0; 2]%nat ∅ []) =
    Continue (BfsState [2%nat] ({[0%nat]} ∪ ∅) [0%nat]) ∧
  ∀ fuel,
    treeBfs (λ _ c, cycle !! c) stop_at_first (S (S fuel)) 0%nat [] = Normal [0%nat] () ∧
    graphBfs (λ _ c, cycle !! c) stop_at_first (S fuel) 0%nat [] = Normal [0%nat] ().
Proof.
  apply (truthy_step_stops_expansion (λ _ c, cycle !! c) stop_at_first
           0%nat [2%nat] ∅ [] [0%nat] (JNum 1)).
  reflexivity.
Defined.

(** ** Further properties of [getConnectedComponent] *)

(** X1.  When every element of the input is an object, the call returns
    exactly on the closed inputs and throws on the others: a successor
    outside the collection has no shell node, and the access to the
    [nextNodes] of the missing shell node throws. *)
Theorem returns_iff_closed (h : heap) (nodes : list loc) :
  Forall (λ u, is_Some (h !! u)) nodes →
  match getConnectedComponent nodes h with
  | Normal _ _ => closed h nodes
  | Throw _ => ¬ closed h nodes
  | OutOfFuel => False
  end.
Proof.
  intros Hobj. rewrite Forall_forall in Hobj.
  destruct (decide (closed h nodes)) as [Hc|Hn].
  - destruct (getConnectedComponent_closed h nodes Hc) as (h' & cnt & Hrun & _).
    simpl in Hrun. by rewrite Hrun.
  - unfold getConnectedComponent.
    destruct (makeShells nodes [] h) as [m h1] eqn:Hmk.
    pose proof (linkShells_inv (λ _ _, True) h m nodes h1
                  (makeShells_link_inv _ _ _ _ _ Hmk)) as Hlink.
    destruct (linkShells m nodes h1) as [h2 []|h2|]; [|done|by destruct Hlink].
    destruct Hlink as (_ & _ & Hall); [done|]. destruct Hn.
    apply closed_spec. intros u Hu. destruct (Hobj u Hu) as [o Ho].
    exists o. split; [done|]. intros v Hv.
    destruct (Hall u v Hu) as (s & t & _ & Ht & _); [by exists o|].
    apply (makeShells_keys_iff _ _ _ _ _ Hmk). eauto.
Qed.

Lemma returns_iff_closed_witness :
  match getConnectedComponent [0%nat] open_pair with
  | Normal _ _ => closed open_pair [0%nat]
  | Throw _ => ¬ closed open_pair [0%nat]
  | OutOfFuel => False
  end.
Proof.
  apply (returns_iff_closed open_pair [0%nat]).
  apply (bool_decide_unpack _). vm_compute. reflexivity.
Defined.

(** X2.  On a closed input no returned group is empty, there are at most
    as many groups as distinct input nodes, and no group at all only for the
    empty input. *)
Theorem groups_not_empty (h : heap) (nodes : list loc) :
  closed h nodes →
  ∃ h' groups,
    getConnectedComponent nodes h = Normal h' groups ∧
    (∀ gr, gr ∈ groups → gr ≠ []) ∧
    (length groups ≤ length (input_order nodes))%nat ∧
    (groups = [] ↔ nodes = []).
Proof.
  intros Hclosed.
  destruct (getConnectedComponent_closed h nodes Hclosed)
    as (h' & cnt & Hrun & _ & (Hcnt & Hr & _ & Hs & _) & Hperm).
  eexists _, _. split; [exact Hrun|].
  set (f := gid (makeShells nodes [] h).1 h') in *.
  set (groups := groups_of f cnt (input_order nodes)) in *.
  assert (∀ gr, gr ∈ groups → gr ≠ []) as Hne.
  { intros gr (i & Hi & ->)%groups_of_elem_of.
    destruct (Hs (Z.of_nat i)) as (k & Hk & Hfk); [lia|].
    intros Hnil.
    assert (k ∈ filter (λ k, f k = Some (Z.of_nat i)) (input_order nodes)) as Hin.
    { apply list_elem_of_filter. split; [done|by apply input_order_elem_of]. }
    rewrite Hnil in Hin. by apply elem_of_nil in Hin. }
  split_and!; [done| |].
  - rewrite <- Hperm. by apply length_le_concat.
  - split.
    + intros Hnil. rewrite Hnil in Hperm. simpl in Hperm.
      apply Permutation_nil_l in Hperm.
      destruct nodes as [|u nodes]; [done|].
      assert (u ∈ input_order (u :: nodes)) as Hu by (apply input_order_elem_of; by left).
      rewrite <- Hperm in Hu. by apply elem_of_nil in Hu.
    + intros ->. destruct groups as [|gr groups]; [done|].
      destruct (Hne gr); [by left|]. simpl in Hperm.
      apply Permutation_nil_r in Hperm. by apply app_eq_nil in Hperm as [? _].
Qed.

Lemma groups_not_empty_witness :
  ∃ h' groups,
    getConnectedComponent [0; 1; 2; 3]%nat two_pairs = Normal h' groups ∧
    (∀ gr, gr ∈ groups → gr ≠ []) ∧
    (length groups ≤ length (input_order [0; 1; 2; 3]%nat))%nat ∧
    (groups = [] ↔ [0; 1; 2; 3]%nat = []).
Proof.
  apply (groups_not_empty two_pairs [0; 1; 2; 3]%nat).
  apply (bool_decide_unpack _). vm_compute. reflexivity.
Defined.

(** X3.  On a closed input a node that no input edge joins to another
    node comes back as a group of its own. *)
Theorem isolated_node_alone (h : heap) (nodes : list loc) (u : loc) :
  closed h nodes → u ∈ nodes →
  Forall (λ w, w = u ∨ ¬ adjacent h u w) nodes →
  ∃ h' groups,
    getConnectedComponent nodes h = Normal h' groups ∧ [u] ∈ groups.
Proof.
  intros Hclosed Hu Hiso. rewrite Forall_forall in Hiso.
  pose proof (proj1 (closed_spec _ _) Hclosed) as Hcl.
  destruct (getConnectedComponent_closed h nodes Hclosed)
    as (h' & cnt & Hrun & _ & (Hcnt & Hr & Hc & _) & _).
  eexists _, _. split; [exact Hrun|].
  set (f := gid (makeShells nodes [] h).1 h') in *.
  destruct (Hr u Hu) as (z & Hz & Hrange).
  replace [u] with (filter (λ k, f k = f u) (input_order nodes));
    [by eapply groups_of_number|].
  rewrite <- (filter_eq_singleton (input_order nodes) u);
    [|apply input_order_NoDup|by apply input_order_elem_of].
  apply filter_ext_elem. intros k Hk.
  apply (proj1 (input_order_elem_of _ _)) in Hk.
  split; [|by intros ->].
  intros Heq. symmetry in Heq. apply (Hc u k Hu Hk) in Heq.
  apply (connected_isolated h nodes u k); [|done].
  intros w Hw. split.
  - intros [_ (o & Ho & Hwo)]. destruct (Hcl u Hu) as (o' & Ho' & Hall). simplify_eq.
    destruct (Hiso w (Hall w Hwo)) as [?|Hadj]; [done|].
    apply Hadj. left. by rewrite Ho.
  - intros [Hwn (o & Ho & Huo)].
    destruct (Hiso w Hwn) as [?|Hadj]; [done|].
    apply Hadj. right. by rewrite Ho.
Qed.

Lemma isolated_node_alone_witness :
  ∃ h' groups,
    getConnectedComponent [0; 1; 2; 3; 4]%nat two_pairs_and_one = Normal h' groups ∧
    [4%nat] ∈ groups.
Proof.
  apply (isolated_node_alone two_pairs_and_one [0; 1; 2; 3; 4]%nat 4%nat).
  - apply (bool_decide_unpack _). vm_compute. reflexivity.
  - apply (bool_decide_unpack _). vm_compute. reflexivity.
  - apply (bool_decide_unpack _). vm_compute. reflexivity.
Defined.

(** X4.  The returned groups depend on the store only through the
    connectivity of the input: two closed stores that connect the same pairs
    of input nodes give the same list of groups.  Turning edges round, for
    one, changes nothing. *)
Theorem groups_depend_on_connectivity (h1 h2 : heap) (nodes : list loc) :
  closed h1 nodes → closed h2 nodes →
  (∀ u v, u ∈ nodes → v ∈ nodes →
     connected h1 nodes u v ↔ connected h2 nodes u v) →
  ∃ h1' h2' groups,
    getConnectedComponent nodes h1 = Normal h1' groups ∧
    getConnectedComponent nodes h2 = Normal h2' groups.
Proof.
  intros Hc1 Hc2 Hconn.
  destruct (getConnectedComponent_closed h1 nodes Hc1)
    as (h1' & cnt1 & Hrun1 & _ & Hnum1 & _).
  destruct (getConnectedComponent_closed h2 nodes Hc2)
    as (h2' & cnt2 & Hrun2 & _ & Hnum2 & _).
  assert (numbering h1 nodes (gid (makeShells nodes [] h2).1 h2') cnt2) as Hnum2'.
  { destruct Hnum2 as (? & ? & Hc & ? & ?). split_and!; try done.
    intros k k' Hk Hk'. by rewrite (Hc k k' Hk Hk'), Hconn. }
  destruct (numbering_unique _ _ _ _ _ _ Hnum1 Hnum2') as [-> Heq].
  eexists h1', h2', _. split; [exact Hrun1|]. rewrite Hrun2. f_equal.
  symmetry. apply groups_of_ext. intros k Hk. by apply Heq, input_order_elem_of.
Qed.

Lemma groups_depend_on_connectivity_witness :
  ∃ h1' h2' groups,
    getConnectedComponent [0; 1; 2]%nat triangle = Normal h1' groups ∧
    getConnectedComponent [0; 1; 2]%nat triangle_reversed = Normal h2' groups.
Proof.
  assert (closed triangle [0; 1; 2]%nat) as Hc1.
  { apply (bool_decide_unpack _). vm_compute. reflexivity. }
  assert (closed triangle_reversed [0; 1; 2]%nat) as Hc2.
  { apply (bool_decide_unpack _). vm_compute. reflexivity. }
  assert (same_links triangle triangle_reversed [0; 1; 2]%nat) as Hl.
  { apply (bool_decide_unpack _). vm_compute. reflexivity. }
  apply (groups_depend_on_connectivity triangle triangle_reversed [0; 1; 2]%nat Hc1 Hc2).
  intros u v _ _. split.
  - by apply same_links_connected.
  - by apply same_links_connected, same_links_sym.
Defined.

(** X5.  The order of the input decides the order of the output and
    nothing else: two inputs with the same elements, in any order and with
    any repetition, give the same groups up to the order of the groups and
    of the nodes inside them. *)
Theorem input_order_only_reorders (h : heap) (nodes nodes' : list loc) :
  closed h nodes → nodes ⊆ nodes' → nodes' ⊆ nodes →
  ∃ h1 h2 groups groups',
    getConnectedComponent nodes h = Normal h1 groups ∧
    getConnectedComponent nodes' h = Normal h2 groups' ∧
    (∀ gr, gr ∈ groups → ∃ gr', gr' ∈ groups' ∧ gr ≡ₚ gr') ∧
    (∀ gr', gr' ∈ groups' → ∃ gr, gr ∈ groups ∧ gr' ≡ₚ gr).
Proof.
  intros Hclosed Hsub Hsub'.
  assert (∀ x, x ∈ nodes ↔ x ∈ nodes') as Hel by (split; auto).
  pose proof (closed_same_elements _ _ _ Hel Hclosed) as Hclosed'.
  destruct (getConnectedComponent_closed h nodes Hclosed)
    as (h1 & cnt & Hrun & _ & Hnum & _).
  destruct (getConnectedComponent_closed h nodes' Hclosed')
    as (h2 & cnt' & Hrun' & _ & Hnum' & _).
  eexists h1, h2, _, _. split; [exact Hrun|]. split; [exact Hrun'|].
  split.
  - intros gr Hgr.
    exact (groups_of_reordered h nodes nodes' _ cnt _ cnt' gr Hel Hnum Hnum' Hgr).
  - intros gr Hgr.
    assert (∀ x, x ∈ nodes' ↔ x ∈ nodes) as Hel' by (intros x; by rewrite Hel).
    exact (groups_of_reordered h nodes' nodes _ cnt' _ cnt gr Hel' Hnum' Hnum Hgr).
Qed.

Lemma input_order_only_reorders_witness :
  ∃ h1 h2 groups groups',
    getConnectedComponent [0; 1; 2; 3]%nat two_pairs = Normal h1 groups ∧
    getConnectedComponent [3; 0; 2; 1; 0]%nat two_pairs = Normal h2 groups' ∧
    (∀ gr, gr ∈ groups → ∃ gr', gr' ∈ groups' ∧ gr ≡ₚ gr') ∧
    (∀ gr', gr' ∈ groups' → ∃ gr, gr ∈ groups ∧ gr' ≡ₚ gr).
Proof.
  apply (input_order_only_reorders two_pairs [0; 1; 2; 3]%nat [3; 0; 2; 1; 0]%nat).
  - apply (bool_decide_unpack _). vm_compute. reflexivity.
  - apply (bool_decide_unpack _). vm_compute. reflexivity.
  - apply (bool_decide_unpack _). vm_compute. reflexivity.
Defined.

(** X6.  However the call ends, it has allocated one shell node for each
    element of the input, repeated elements included, and each still carries
    its element as [val]: the store it leaves is the store it was given
    followed by [length nodes] objects whose [val] are the elements of the
    input, in order. *)
Theorem one_shell_per_element (h : heap) (nodes : list loc) :
  match getConnectedComponent nodes h with
  | Normal h' _ | Throw h' =>
      ∃ shells, h' = h ++ shells ∧ val <$> shells = Some <$> nodes
  | OutOfFuel => False
  end.
Proof.
  pose proof (getConnectedComponent_frame h nodes) as Hframe.
  pose proof (getConnectedComponent_vals nodes h) as Hvals.
  assert (∀ h', h `prefix_of` h' → same_vals (h ++ (shell <$> nodes)) h' →
    ∃ shells, h' = h ++ shells ∧ val <$> shells = Some <$> nodes) as Hboth.
  { intros h' [shells ->] Hv. exists shells. split; [done|].
    assert (val <$> (h ++ shells) = val <$> (h ++ (shell <$> nodes))) as Heq.
    { apply list_eq. intros l. rewrite !list_lookup_fmap. apply Hv. }
    rewrite !fmap_app in Heq. apply app_inv_head in Heq. rewrite Heq.
    rewrite <- list_fmap_compose. done. }
  destruct (getConnectedComponent nodes h); simpl in *; auto.
Qed.

(** ** Further properties of [graphBfs] and [treeBfs] *)

(** X7.  Whatever the callback does, [graphBfs] calls it first on the root
    and after that only on nodes that the root reaches along the neighbour
    lists, and with the fuel of [graph_fuel] it ends, normally or by a
    throw. *)
Theorem graphBfs_calls_reachable_only {St : Type} (graph : list (list loc))
    (step : loc → St → St * option jsval) (root : loc) (s : St) (fuel : nat) :
  (graph_fuel graph ≤ fuel)%nat →
  match graphBfs (λ _ c, graph !! c) (spy step) fuel root (s, []) with
  | Normal st _ | Throw st =>
      (∃ rest, st.2 = root :: rest) ∧ ∀ x, x ∈ st.2 → rtc (gedge graph) root x
  | OutOfFuel => False
  end.
Proof.
  intros Hfuel.
  pose proof (graphBfs_visits_reachable graph step root fuel s) as Hvisit.
  assert (graphBfs (λ _ c, graph !! c) (spy step) fuel root (s, []) ≠ OutOfFuel)
    as Hend.
  { apply (graphBfs_enough_fuel (λ (_ : St * list loc) c, graph !! c) (spy step)
             (seq 0 (length graph)) (max_list (length <$> graph)) (λ _, True));
      [done| |done|].
    - intros _ c next _ Hc. split.
      + apply elem_of_seq. apply lookup_lt_Some in Hc. lia.
      + apply max_list_elem_of_le, list_elem_of_fmap. exists next.
        split; [done|]. by eapply list_elem_of_lookup_2.
    - unfold graph_fuel in Hfuel. rewrite length_seq. lia. }
  destruct (graphBfs (λ _ c, graph !! c) (spy step) fuel root (s, [])); done.
Qed.

Lemma graphBfs_calls_reachable_only_witness :
  match graphBfs (λ _ c, diamond !! c) (spy stop_at_first) 9 2%nat ([], []) with
  | Normal st _ | Throw st =>
      (∃ rest, st.2 = 2%nat :: rest) ∧ ∀ x, x ∈ st.2 → rtc (gedge diamond) 2%nat x
  | OutOfFuel => False
  end.
Proof.
  apply (graphBfs_calls_reachable_only diamond stop_at_first 2%nat [] 9).
  vm_compute. lia.
Defined.

(** X8.  With a callback that never throws and never returns a truthy value,
    [graphBfs] returns exactly when every node the root reaches has a
    neighbour list, and it has then called the callback on every such node;
    otherwise it throws, right after the call on a reachable node that has
    none. *)
Theorem graphBfs_calls_every_reachable {St : Type} (graph : list (list loc))
    (step : loc → St → St * option jsval) (root : loc) (s : St) (fuel : nat) :
  never_stops step →
  (graph_fuel graph ≤ fuel)%nat →
  match graphBfs (λ _ c, graph !! c) (spy step) fuel root (s, []) with
  | Normal st _ =>
      (∀ x, rtc (gedge graph) root x → is_Some (graph !! x)) ∧
      (∀ x, x ∈ st.2 ↔ rtc (gedge graph) root x)
  | Throw st =>
      ∃ x, rtc (gedge graph) root x ∧ graph !! x = None ∧ last st.2 = Some x
  | OutOfFuel => False
  end.
Proof. intros Hstep Hfuel. by apply graphBfs_covers. Qed.

Lemma graphBfs_calls_every_reachable_witness :
  match graphBfs (λ _ c, diamond !! c) (spy record_call) 9 0%nat ([], []) with
  | Normal st _ =>
      (∀ x, rtc (gedge diamond) 0%nat x → is_Some (diamond !! x)) ∧
      (∀ x, x ∈ st.2 ↔ rtc (gedge diamond) 0%nat x)
  | Throw st =>
      ∃ x, rtc (gedge diamond) 0%nat x ∧ diamond !! x = None ∧ last st.2 = Some x
  | OutOfFuel => False
  end.
Proof.
  apply (graphBfs_calls_every_reachable diamond record_call 0%nat [] 9).
  - intros c s. by exists (JBool false).
  - vm_compute. lia.
Defined.

(** X9.  On nodes that all have a [nextNodes] array and below which the
    generations end after [d] steps, [treeBfs] with a callback that never
    stops returns, and it has called the callback generation by generation:
    on the root, then on its children in order, then on theirs, a node once
    for every path that leads to it. *)
Theorem treeBfs_calls_level_order {St : Type} (children : loc → list loc)
    (step : loc → St → St * option jsval) (root : loc) (s : St) (d fuel : nat) :
  never_stops step →
  level children d [root] = [] →
  (length (level_order children d [root]) < fuel)%nat →
  treeBfs (λ _ c, Some (children c)) (spy step) fuel root (s, []) =
    Normal (after_calls step s (level_order children d [root]),
            level_order children d [root]) ().
Proof.
  intros Hstep Hd Hfuel. unfold treeBfs.
  rewrite (treeBfs_loop_levels children (spy step) (never_stops_spy step Hstep)
             d [root] (s, []) fuel Hd Hfuel).
  by rewrite after_calls_spy.
Qed.

Lemma treeBfs_calls_level_order_witness :
  treeBfs (λ _ c, Some (table_children diamond c)) (spy record_call) 6 0%nat ([], []) =
    Normal (after_calls record_call [] (level_order (table_children diamond) 3 [0%nat]),
            level_order (table_children diamond) 3 [0%nat]) ().
Proof.
  apply (treeBfs_calls_level_order (table_children diamond) record_call 0%nat [] 3 6).
  - intros c s. by exists (JBool false).
  - reflexivity.
  - vm_compute. lia.
Defined.

(** X10.  When the root reaches a node that lies on a cycle, [treeBfs] with
    a callback that never stops does not end: it runs out of any fuel. *)
Theorem treeBfs_endless_on_cycle {St : Type} (children : loc → list loc)
    (step : loc → St → St * option jsval) (root x : loc) (k m : nat) (s : St) :
  never_stops step →
  x ∈ level children k [root] →
  x ∈ level children (S m) [x] →
  ∀ fuel, treeBfs (λ _ c, Some (children c)) step fuel root s = OutOfFuel.
Proof.
  intros Hstep Hk Hm fuel. unfold treeBfs.
  apply treeBfs_loop_endless; [done|].
  intros d. by eapply level_cycle.
Qed.

Lemma treeBfs_endless_on_cycle_witness :
  treeBfs (λ _ c, Some (table_children cycle c)) record_call 1000 1%nat []
    = OutOfFuel.
Proof.
  apply (treeBfs_endless_on_cycle (table_children cycle) record_call 1%nat 2%nat 1 2 []).
  - intros c s. by exists (JBool false).
  - apply (bool_decide_unpack _). vm_compute. reflexivity.
  - apply (bool_decide_unpack _). vm_compute. reflexivity.
Defined.

(** X11.  On a tree, where the generations end and no node is met twice,
    [graphBfs] and [treeBfs] with a callback that never stops do the same:
    both return after calling the callback once on every node, generation
    by generation. *)
Theorem graphBfs_on_tree {St : Type} (children : loc → list loc)
    (step : loc → St → St * option jsval) (root : loc) (s : St) (d fuel fuel' : nat) :
  never_stops step →
  level children d [root] = [] →
  NoDup (level_order children d [root]) →
  (length (level_order children d [root]) < 2 ^ fuel)%nat →
  (length (level_order children d [root]) < fuel')%nat →
  graphBfs (λ _ c, Some (children c)) (spy step) fuel root (s, []) =
    Normal (after_calls step s (level_order children d [root]),
            level_order children d [root]) () ∧
  treeBfs (λ _ c, Some (children c)) (spy step) fuel' root (s, []) =
    graphBfs (λ _ c, Some (children c)) (spy step) fuel root (s, []).
Proof.
  intros Hstep Hd Hnd Hfuel Hfuel'.
  assert (graphBfs (λ _ c, Some (children c)) (spy step) fuel root (s, []) =
    Normal (after_calls step s (level_order children d [root]),
            level_order children d [root]) ()) as Hgraph.
  { unfold graphBfs. rewrite loop_run.
    replace (2 ^ fuel)%nat with
      (S (length (level_order children d [root]))
       + (2 ^ fuel - S (length (level_order children d [root]))))%nat by lia.
    rewrite (graphBfs_run_levels children (spy step) (never_stops_spy step Hstep)
               d [root] ∅ (s, []) _ Hd Hnd) by set_solver.
    by rewrite after_calls_spy. }
  split; [done|]. rewrite Hgraph.
  by apply treeBfs_calls_level_order_aux.
Qed.

Lemma graphBfs_on_tree_witness :
  graphBfs (λ _ c, Some (table_children small_tree c)) (spy record_call) 3 0%nat ([], []) =
    Normal (after_calls record_call [] (level_order (table_children small_tree) 4 [0%nat]),
            level_order (table_children small_tree) 4 [0%nat]) () ∧
  treeBfs (λ _ c, Some (table_children small_tree c)) (spy record_call) 5 0%nat ([], []) =
    graphBfs (λ _ c, Some (table_children small_tree c)) (spy record_call) 3 0%nat ([], []).
Proof.
  apply (graphBfs_on_tree (table_children small_tree) record_call 0%nat [] 4 3 5).
  - intros c s. by exists (JBool false).
  - reflexivity.
  - apply (bool_decide_unpack _). vm_compute. reflexivity.
  - vm_compute. lia.
  - vm_compute. lia.
Defined.

(** X12.  Naming a node again changes nothing: on a closed input the
    call returns the groups it returns on the input with the repetitions
    removed, each node kept where it first stands. *)
Theorem repeated_nodes_are_ignored (h : heap) (nodes : list loc) :
  closed h nodes →
  ∃ h1 h2 groups,
    getConnectedComponent nodes h = Normal h1 groups ∧
    getConnectedComponent (input_order nodes) h = Normal h2 groups.
Proof.
  intros Hclosed.
  assert (∀ x, x ∈ nodes ↔ x ∈ input_order nodes) as Hel.
  { intros x. by rewrite input_order_elem_of. }
  pose proof (closed_same_elements _ _ _ Hel Hclosed) as Hclosed'.
  pose proof (input_order_NoDup_id _ (input_order_NoDup nodes)) as Hid.
  destruct (getConnectedComponent_closed h nodes Hclosed)
    as (h1 & cnt1 & Hrun1 & _ & Hnum1 & _).
  destruct (getConnectedComponent_closed h (input_order nodes) Hclosed')
    as (h2 & cnt2 & Hrun2 & _ & Hnum2 & _).
  rewrite Hid in Hrun2.
  assert (numbering h nodes (gid (makeShells (input_order nodes) [] h).1 h2) cnt2)
    as Hnum2'.
  { destruct Hnum2 as (? & Hr & Hc & Hs & Hrg). rewrite Hid in Hrg.
    split_and!; [done|..].
    - intros k Hk. by apply Hr, Hel.
    - intros k k' Hk Hk'. rewrite (Hc k k') by (by apply Hel).
      symmetry. by apply connected_same_elements.
    - intros z Hz. destruct (Hs z Hz) as (k & Hk & ?). exists k.
      split; [by apply Hel|done].
    - intros k z z' Hk. apply Hrg. by apply Hel. }
  destruct (numbering_unique _ _ _ _ _ _ Hnum1 Hnum2') as [-> Heq].
  eexists h1, h2, _. split; [exact Hrun1|]. rewrite Hrun2. f_equal.
  symmetry. apply groups_of_ext. intros k Hk. by apply Heq, input_order_elem_of.
Qed.

Lemma repeated_nodes_are_ignored_witness :
  ∃ h1 h2 groups,
    getConnectedComponent [0; 1; 0]%nat twice_named = Normal h1 groups ∧
    getConnectedComponent (input_order [0; 1; 0]%nat) twice_named = Normal h2 groups.
Proof.
  apply (repeated_nodes_are_ignored twice_named [0; 1; 0]%nat).
  apply (bool_decide_unpack _). vm_compute. reflexivity.
Defined.
